(** * libbitcoin: chain::transaction and wallet::payment_address

    A shallow embedding of [src/chain/transaction.cpp] and of the inline
    [std::hash] adapter of [wallet/payment_address.hpp].

    Conventions.
    - Fixed-width unsigned integers are [Z] values; every place where the
      C++ code computes modulo [2^w] (arithmetic, narrowing casts) is written
      with an explicit [mod].
    - Bytes are [Byte.byte]; a [data_chunk] is a [list byte].
    - Member functions that mutate [*this] or a stream take the old state
      and return the new one.
    - The model is sequential: the mutex operations around [hash_] have no
      effect on the values computed and are left out.
    - An exception that leaves a function is a result of its own
      ([length_error]), returned beside the state the object is left in.
    - Memory is unbounded: an allocation never fails, so
      [std::vector::resize] throws only [std::length_error], when the
      count exceeds [max_size()]. *)

From Stdlib Require Import ZArith List Bool Lia Permutation.
From Stdlib.Strings Require Import Byte.
Import ListNotations.
Open Scope Z_scope.

(** ** Machine integers and protocol constants *)

Definition max_uint32 : Z := 2 ^ 32 - 1.
Definition max_uint64 : Z := 2 ^ 64 - 1.

(** [size_t] on an LP64 platform. *)
Definition max_size_t : Z := max_uint64.

(** [PTRDIFF_MAX] on an LP64 platform. *)
Definition max_ptrdiff : Z := 2 ^ 63 - 1.

Definition wrap32 (z : Z) : Z := z mod 2 ^ 32.
Definition wrap64 (z : Z) : Z := z mod 2 ^ 64.
Definition wrap_size_t (z : Z) : Z := z mod (max_size_t + 1).

Definition is_uint32 (z : Z) : Prop := 0 <= z <= max_uint32.
Definition is_uint64 (z : Z) : Prop := 0 <= z <= max_uint64.

(** Modelled from the spec: [constants.hpp] is outside the files embedded
    here.  The spec names a locktime-threshold constant, a maximum input
    sequence sentinel (the largest 32-bit value) and protocol-fixed coinbase
    script bounds; the values are those of the Bitcoin protocol. *)
Definition locktime_threshold : Z := 500000000.
Definition max_input_sequence : Z := max_uint32.
Definition min_coinbase_size : Z := 2.
Definition max_coinbase_size : Z := 100.

(** ** Bytes *)

Definition data_chunk : Type := list byte.
Definition hash_digest : Type := list byte.
Definition short_hash : Type := list byte.

Definition byte_value (b : byte) : Z := Z.of_N (Byte.to_N b).

Definition byte_of_Z (z : Z) : byte :=
  match Byte.of_N (Z.to_N (z mod 256)) with
  | Some b => b
  | None => x00
  end.

(** ** The binary cursor

    Modelled from the spec: the reader and writer classes
    ([istream_reader], [ostream_writer]) are outside the files embedded
    here.  The spec describes a cursor over bytes that can fail and report
    exhaustion, 4-byte little-endian integers, and compact-size integers
    whose first byte determines whether 1, 3, 5 or 9 bytes encode the value.
    A failed cursor stays failed; a read from a failed or exhausted cursor
    yields zero. *)

Record reader : Type := mk_reader {
  stream : data_chunk;   (* bytes not yet consumed *)
  good : bool            (* [static_cast<bool>(source)] *)
}.

Definition data_source (data : data_chunk) : reader := mk_reader data true.

Definition read_byte (r : reader) : byte * reader :=
  if good r then
    match stream r with
    | b :: rest => (b, mk_reader rest true)
    | [] => (x00, mk_reader [] false)
    end
  else (x00, r).

Fixpoint read_little_endian (n : nat) (r : reader) : Z * reader :=
  match n with
  | O => (0, r)
  | S n' =>
      let '(b, r1) := read_byte r in
      let '(v, r2) := read_little_endian n' r1 in
      (byte_value b + 256 * v, r2)
  end.

Definition read_2_bytes_little_endian := read_little_endian 2.
Definition read_4_bytes_little_endian := read_little_endian 4.
Definition read_8_bytes_little_endian := read_little_endian 8.

Definition read_variable_uint_little_endian (r : reader) : Z * reader :=
  let '(b, r1) := read_byte r in
  let len := byte_value b in
  if len <? 253 then (len, r1)
  else if len =? 253 then read_2_bytes_little_endian r1
  else if len =? 254 then read_4_bytes_little_endian r1
  else read_8_bytes_little_endian r1.

Fixpoint read_bytes (n : nat) (r : reader) : data_chunk * reader :=
  match n with
  | O => ([], r)
  | S n' =>
      let '(b, r1) := read_byte r in
      let '(bs, r2) := read_bytes n' r1 in
      (b :: bs, r2)
  end.

(** The writer appends to a sink; the functions below give the bytes
    appended. *)
Fixpoint to_little_endian (n : nat) (v : Z) : data_chunk :=
  match n with
  | O => []
  | S n' => byte_of_Z v :: to_little_endian n' (v / 256)
  end.

Definition write_4_bytes_little_endian (v : Z) : data_chunk :=
  to_little_endian 4 v.

Definition write_variable_uint_little_endian (v : Z) : data_chunk :=
  if v <? 253 then [byte_of_Z v]
  else if v <=? 65535 then xfd :: to_little_endian 2 v
  else if v <=? 4294967295 then xfe :: to_little_endian 4 v
  else xff :: to_little_endian 8 v.

Definition variable_uint_size (v : Z) : Z :=
  if v <? 253 then 1
  else if v <=? 65535 then 3
  else if v <=? 4294967295 then 5
  else 9.

(** The compact-size integer at the head of [r] is in its shortest form:
    the reader consumes exactly the bytes the writer emits for the value. *)
Definition variable_uint_minimal (r : reader) : bool :=
  let '(v, r') := read_variable_uint_little_endian r in
  (length (stream r) =?
   length (write_variable_uint_little_endian v) + length (stream r'))%nat.


(** ** Generic helpers *)

(** [std::accumulate(first, last, init, op)]. *)
Definition accumulate {A B : Type} (l : list A) (init : B) (op : B -> A -> B)
  : B :=
  fold_left op l init.

(** The container after a [resize(n)] that did not throw: truncated, or
    padded with default-constructed elements. *)
Definition resize_to {A : Type} (v : list A) (n : Z) (d : A) : list A :=
  firstn (Z.to_nat n) v ++ repeat d (Z.to_nat n - length v).

(** [std::vector::resize(n)] for a vector whose [max_size()] is
    [max_size]: a count above it throws [std::length_error] and leaves the
    vector as it was ([None]); any other count succeeds. *)
Definition resize {A : Type} (max_size : Z) (v : list A) (n : Z) (d : A)
  : option (list A) :=
  if max_size <? n then None else Some (resize_to v n d).

(** How a call of a [bool] member function ends: it returns a value, or
    the [std::length_error] of a [resize] leaves it. *)
Inductive completion : Type :=
| returned (result : bool)
| length_error.

(** [std::vector::size()]. *)
Definition size {A : Type} (v : list A) : Z := Z.of_nat (length v).

(** [v[i]] without a bounds check: reading past the end is undefined
    behaviour, rendered as [None]. *)
Definition at_index {A : Type} (v : list A) (i : nat) : option A :=
  nth_error v i.

(** Sequencing of reads that may be out of bounds. *)
Definition and_then {A B : Type} (a : option A) (k : A -> option B)
  : option B :=
  match a with
  | Some x => k x
  | None => None
  end.

(** Element-wise comparison of two byte arrays ([std::array::operator==]). *)
Fixpoint data_eqb (a b : list byte) : bool :=
  match a, b with
  | [], [] => true
  | x :: a', y :: b' => Byte.eqb x y && data_eqb a' b'
  | _, _ => false
  end.

(** ** Collaborators of the transaction

    The script subsystem and the output point are used through a fixed
    interface only ([is_null], [serialized_size(bool)],
    [signature_operations(bool)]); their types are parameters. *)

Class Collaborators : Type := {
  output_point : Type;
  script : Type;
  output_point_default : output_point;
  script_default : script;
  is_null : output_point -> bool;
  script_serialized_size : script -> bool -> Z;
  script_signature_operations : script -> bool -> Z
}.

Module input.
Section Definitions.
Context {C : Collaborators}.

Record t : Type := mk {
  previous_output : output_point;
  script : script;
  sequence : Z
}.

(** A default-constructed input, as [resize] creates it. *)
Definition default : t := mk output_point_default script_default 0.

(** Modelled from the spec: [input::is_final] is declared in [input.hpp],
    which is outside the files embedded here; an input reports itself
    final when its sequence number is at the maximum value sentinel. *)
Definition is_final (i : t) : bool := sequence i =? max_input_sequence.
End Definitions.
End input.

Module output.
Section Definitions.
Context {C : Collaborators}.

Record t : Type := mk {
  value : Z;
  script : script
}.

Definition default : t := mk 0 script_default.
End Definitions.
End output.

(** Wire format of inputs and outputs and the double-hash primitive: used
    through [from_data], [to_data], [serialized_size] and [bitcoin_hash]
    only.  [from_data] is a member function: it receives the element it is
    called on, and returns the element it leaves behind.  Calls into the
    collaborators are taken to return; what they may throw is not
    modelled. *)
Class ElementCodec {C : Collaborators} : Type := {
  input_from_data : input.t -> reader -> bool * input.t * reader;
  input_to_data : input.t -> data_chunk;
  input_serialized_size : input.t -> Z;
  output_from_data : output.t -> reader -> bool * output.t * reader;
  output_to_data : output.t -> data_chunk;
  output_serialized_size : output.t -> Z;
  bitcoin_hash : data_chunk -> hash_digest
}.

(** [max_size()] of the two vectors of a transaction.  It depends on the
    size of the element type: on an LP64 platform it is [PTRDIFF_MAX]
    divided by that size, which for these classes lies between the largest
    32-bit value and [PTRDIFF_MAX]. *)
Class VectorLimits : Type := {
  input_max_size : Z;
  output_max_size : Z;
  input_max_size_range : max_uint32 <= input_max_size <= max_ptrdiff;
  output_max_size_range : max_uint32 <= output_max_size <= max_ptrdiff
}.

(** ** chain::transaction *)

Module transaction.
Section Definitions.
Context {C : Collaborators} {E : ElementCodec} {L : VectorLimits}.

Record t : Type := mk {
  version : Z;
  locktime : Z;
  inputs : list input.t;
  outputs : list output.t;
  hash_ : option hash_digest;   (* [std::shared_ptr<hash_digest>] *)
  sigops_ : Z                   (* [mutable size_t] *)
}.

Definition set_version (v : Z) (this : t) : t :=
  mk v (locktime this) (inputs this) (outputs this) (hash_ this)
     (sigops_ this).
Definition set_locktime (v : Z) (this : t) : t :=
  mk (version this) v (inputs this) (outputs this) (hash_ this)
     (sigops_ this).
Definition set_inputs (v : list input.t) (this : t) : t :=
  mk (version this) (locktime this) v (outputs this) (hash_ this)
     (sigops_ this).
Definition set_outputs (v : list output.t) (this : t) : t :=
  mk (version this) (locktime this) (inputs this) v (hash_ this)
     (sigops_ this).
Definition set_hash (v : option hash_digest) (this : t) : t :=
  mk (version this) (locktime this) (inputs this) (outputs this) v
     (sigops_ this).
Definition set_sigops (v : Z) (this : t) : t :=
  mk (version this) (locktime this) (inputs this) (outputs this)
     (hash_ this) v.

(** [transaction()] *)
Definition default : t := mk 0 0 [] [] None 0.

(** [transaction(version, locktime, inputs, outputs)], by copy or move. *)
Definition make (version locktime : Z) (inputs : list input.t)
    (outputs : list output.t) : t :=
  mk version locktime inputs outputs None 0.

(** [transaction(const transaction&)] and [transaction(transaction&&)]. *)
Definition copy (other : t) : t :=
  make (version other) (locktime other) (inputs other) (outputs other).

(** [operator=(transaction&&)]: the result is the assigned-to object. *)
Definition move_assign (this other : t) : t :=
  let this := set_version (version other) this in
  let this := set_locktime (locktime other) this in
  let this := set_inputs (inputs other) this in
  let this := set_outputs (outputs other) this in
  this.

Definition is_valid (this : t) : bool :=
  negb (version this =? 0) || negb (locktime this =? 0) ||
  negb (size (inputs this) =? 0) || negb (size (outputs this) =? 0).

Definition reset (this : t) : t :=
  let this := set_version 0 this in
  let this := set_locktime 0 this in
  let this := set_inputs [] this in
  let this := set_outputs [] this in
  let this := set_sigops 0 this in
  let this := set_hash None this in
  this.

(** The range-for loops of [from_data]: each element reads itself from
    the source; the first failure breaks out and leaves the remaining
    elements as they are.  [result] is the value the variable holds when
    the loop is entered. *)
Fixpoint from_data_each {A : Type}
    (element_from_data : A -> reader -> bool * A * reader)
    (result : bool) (elements : list A) (source : reader)
  : bool * list A * reader :=
  match elements with
  | [] => (result, [], source)
  | x :: rest =>
      let '(result, x, source) := element_from_data x source in
      if negb result then (result, x :: rest, source)
      else
        let '(result, rest, source) :=
          from_data_each element_from_data result rest source in
        (result, x :: rest, source)
  end.

(** [from_data(reader&)]: how the call ends, the object and the source
    after it.  A [length_error] thrown by [inputs.resize] or
    [outputs.resize] is not caught: it leaves the function at once, past
    the final [reset()]. *)
Definition from_data (this : t) (source : reader)
  : completion * t * reader :=
  let this := reset this in
  let '(v, source) := read_4_bytes_little_endian source in
  let this := set_version v this in
  let result := good source in
  let '(result, this, source) :=
    if result then
      let '(tx_in_count, source) :=
        read_variable_uint_little_endian source in
      let result := good source in
      if result then
        match resize input_max_size (inputs this) tx_in_count
                input.default with
        | None => (length_error, this, source)
        | Some slots =>
            let '(result, ins, source) :=
              from_data_each input_from_data result slots source in
            (returned result, set_inputs ins this, source)
        end
      else (returned result, this, source)
    else (returned result, this, source) in
  match result with
  | length_error => (length_error, this, source)
  | returned result =>
      let '(result, this, source) :=
        if result then
          let '(tx_out_count, source) :=
            read_variable_uint_little_endian source in
          let result := good source in
          if result then
            match resize output_max_size (outputs this) tx_out_count
                    output.default with
            | None => (length_error, this, source)
            | Some slots =>
                let '(result, outs, source) :=
                  from_data_each output_from_data result slots source in
                (returned result, set_outputs outs this, source)
            end
          else (returned result, this, source)
        else (returned result, this, source) in
      match result with
      | length_error => (length_error, this, source)
      | returned result =>
          let '(result, this, source) :=
            if result then
              let '(v, source) := read_4_bytes_little_endian source in
              (good source, set_locktime v this, source)
            else (result, this, source) in
          let this := if negb result then reset this else this in
          (returned result, this, source)
      end
  end.

(** [from_data(const data_chunk&)] *)
Definition from_data_chunk (this : t) (data : data_chunk)
  : completion * t :=
  let '(result, this, _) := from_data this (data_source data) in
  (result, this).

(** [factory_from_data(const data_chunk&)]: the instance returned, or
    [None] when the exception of [from_data] leaves the factory too. *)
Definition factory_from_data (data : data_chunk) : option t :=
  let instance := default in
  match from_data_chunk instance data with
  | (returned _, instance) => Some instance
  | (length_error, _) => None
  end.

(** [to_data(writer&)]: the sink after the call. *)
Definition to_data_sink (this : t) (sink : data_chunk) : data_chunk :=
  let sink := sink ++ write_4_bytes_little_endian (version this) in
  let sink :=
    sink ++ write_variable_uint_little_endian (size (inputs this)) in
  let sink :=
    fold_left (fun sink input => sink ++ input_to_data input)
      (inputs this) sink in
  let sink :=
    sink ++ write_variable_uint_little_endian (size (outputs this)) in
  let sink :=
    fold_left (fun sink output => sink ++ output_to_data output)
      (outputs this) sink in
  sink ++ write_4_bytes_little_endian (locktime this).

(** [to_data()]; the [BITCOIN_ASSERT] on the size is a claim about the
    result, proved below, and not a computation. *)
Definition to_data (this : t) : data_chunk := to_data_sink this [].

Definition serialized_size (this : t) : Z :=
  let tx_size := 8 in
  let tx_size :=
    wrap64 (tx_size + variable_uint_size (size (inputs this))) in
  let tx_size :=
    fold_left
      (fun tx_size input => wrap64 (tx_size + input_serialized_size input))
      (inputs this) tx_size in
  let tx_size :=
    wrap64 (tx_size + variable_uint_size (size (outputs this))) in
  let tx_size :=
    fold_left
      (fun tx_size output =>
         wrap64 (tx_size + output_serialized_size output))
      (outputs this) tx_size in
  tx_size.

(** [hash()]: the digest returned and the object with its cache. *)
Definition hash (this : t) : hash_digest * t :=
  match hash_ this with
  | Some h => (h, this)
  | None =>
      let h := bitcoin_hash (to_data this) in
      (h, set_hash (Some h) this)
  end.

(** [hash(uint32_t sighash_type)] *)
Definition hash_sighash (this : t) (sighash_type : Z) : hash_digest :=
  let serialized := to_data this in
  let serialized := serialized ++ to_little_endian 4 sighash_type in
  bitcoin_hash serialized.

(** [operator=(const transaction&)]: the assigned-to object, and [other]
    whose own cache [other.hash()] may have filled. *)
Definition copy_assign (this other : t) : t * t :=
  let this := set_version (version other) this in
  let this := set_locktime (locktime other) this in
  let this := set_inputs (inputs other) this in
  let this := set_outputs (outputs other) this in
  let this := set_sigops (sigops_ other) this in
  let '(h, other) := hash other in
  (set_hash (Some h) this, other).

Definition is_coinbase (this : t) : option bool :=
  if size (inputs this) =? 1 then
    and_then (at_index (inputs this) 0) (fun input0 =>
    Some (is_null (input.previous_output input0)))
  else Some false.

Definition is_invalid_coinbase (this : t) : option bool :=
  and_then (is_coinbase this) (fun coinbase =>
  if negb coinbase then Some false
  else
    and_then (at_index (inputs this) 0) (fun input0 =>
    let script_size := script_serialized_size (input.script input0) false in
    Some ((script_size <? min_coinbase_size) ||
          (script_size >? max_coinbase_size)))).

Definition is_invalid_non_coinbase (this : t) : option bool :=
  and_then (is_coinbase this) (fun coinbase =>
  if coinbase then Some false
  else
    Some (existsb (fun input => is_null (input.previous_output input))
            (inputs this))).

Definition is_final (this : t) (block_height block_time : Z) : bool :=
  if locktime this =? 0 then true
  else
    let max_locktime := block_time in
    let max_locktime :=
      if locktime this <? locktime_threshold
      then wrap32 block_height   (* [static_cast<uint32_t>(block_height)] *)
      else max_locktime in
    if locktime this <? max_locktime then true
    else forallb input.is_final (inputs this).

Definition is_locktime_conflict (this : t) : bool :=
  let locktime_set := negb (locktime this =? 0) in
  if locktime_set &&
     existsb (fun input => input.sequence input <? max_input_sequence)
       (inputs this)
  then false
  else locktime_set.

Definition total_output_value (this : t) : Z :=
  let value := fun (total : Z) (output : output.t) =>
    let value := output.value output in
    if total >=? wrap64 (max_uint64 - value) then max_uint64
    else wrap64 (total + value) in
  accumulate (outputs this) 0 value.

(** The values of both [std::accumulate] calls are discarded, as in the
    source; [sigops_] is passed to them by value. *)
Definition signature_operations (this : t) : Z :=
  if negb (sigops_ this =? 0) then sigops_ this
  else
    let in_ := fun (total : Z) (input : input.t) =>
      let count := script_signature_operations (input.script input) false in
      if total >=? wrap_size_t (max_size_t - count) then max_size_t
      else wrap_size_t (total + count) in
    let out := fun (total : Z) (output : output.t) =>
      let count :=
        script_signature_operations (output.script output) false in
      if total >=? wrap_size_t (max_size_t - count) then max_size_t
      else wrap_size_t (total + count) in
    let _ := accumulate (inputs this) (sigops_ this) in_ in
    let _ := accumulate (outputs this) (sigops_ this) out in
    sigops_ this.

(** *** Reference definitions, stated as the specification words them *)

(** Saturating addition on [size_t]. *)
Definition saturating_add (bound a b : Z) : Z := Z.min bound (a + b).

(** The saturating sum of the per-script counts over all inputs and then
    all outputs. *)
Definition signature_operations_spec (this : t) : Z :=
  let ins :=
    fold_left
      (fun total input =>
         saturating_add max_size_t total
           (script_signature_operations (input.script input) false))
      (inputs this) 0 in
  fold_left
    (fun total output =>
       saturating_add max_size_t total
         (script_signature_operations (output.script output) false))
    (outputs this) ins.

(** The sum of the output values, and of their first [k]. *)
Definition value_sum (outs : list output.t) : Z :=
  fold_right (fun output acc => output.value output + acc) 0 outs.

(** Finality as the specification words it, with the 64-bit block height
    itself as the comparison basis. *)
Definition is_final_spec (this : t) (block_height block_time : Z) : Prop :=
  locktime this = 0 \/
  locktime this <
    (if locktime this <? locktime_threshold then block_height
     else block_time) \/
  (forall input, In input (inputs this) ->
     input.sequence input = max_input_sequence).

(** Both element counts of the serialized transaction at the head of
    [source] are in their shortest compact-size form. *)
Definition counts_minimal (source : reader) : bool :=
  let '(_, source) := read_4_bytes_little_endian source in
  variable_uint_minimal source &&
  (let '(tx_in_count, source) :=
     read_variable_uint_little_endian source in
   let '(_, _, source) :=
     from_data_each input_from_data true
       (resize_to [] tx_in_count input.default) source in
   variable_uint_minimal source).

End Definitions.
End transaction.

(** ** wallet::payment_address *)

Module payment_address.
Section Definitions.
(** [std::hash<std::string>::operator()], the standard library's string
    hash, whatever it computes. *)
Variable functor : list byte -> Z.

Definition short_hash_size : nat := 20.

Record t : Type := mk {
  valid_ : bool;
  version_ : byte;       (* [uint8_t] *)
  hash_ : short_hash     (* [byte_array<short_hash_size>] *)
}.

(** The accessors [version()] and [hash()]. *)
Definition version (address : t) : byte := version_ address.
Definition hash (address : t) : short_hash := hash_ address.

(** An address as a value of its C++ type: the hash has 20 bytes. *)
Definition well_formed (address : t) : Prop :=
  length (hash address) = short_hash_size.

(** Modelled from the spec: [operator==] is only declared in
    [payment_address.hpp]; its body is in [payment_address.cpp], which is
    outside the files embedded here.  The spec: equality is defined
    purely on (version, hash). *)
Definition equal (left right : t) : bool :=
  Byte.eqb (version left) (version right) &&
  data_eqb (hash left) (hash right).

(** [buffer[i] = c] *)
Definition assign_at (buffer : list byte) (i : nat) (c : byte) : list byte :=
  firstn i buffer ++ c :: skipn (S i) buffer.

(** [std::copy(first, last, buffer.begin() + offset)] *)
Definition copy_to (source buffer : list byte) (offset : nat) : list byte :=
  firstn offset buffer ++ source ++ skipn (offset + length source) buffer.

(** [std::hash<payment_address>::operator()].  The 21 characters asked
    of [buffer.resize] are within the [max_size()] of any [std::string],
    so it does not throw. *)
Definition std_hash (address : t) : Z :=
  let buffer := [] in
  let buffer := resize_to buffer (Z.of_nat (short_hash_size + 1)) x00 in
  let buffer := assign_at buffer 0 (version address) in
  let hash := hash address in
  let buffer := copy_to hash buffer 1 in
  functor buffer.

(** The projection both operations are said to work on. *)
Definition projection (address : t) : byte * short_hash :=
  (version address, hash address).
End Definitions.
End payment_address.

(** ** A concrete instance of the collaborators

    A small stand-in for the script and wire-format collaborators, so that
    the model can be run on sample transactions.  It is not libbitcoin's
    script engine: a script is its raw bytes, its signature operations are
    its [0xac] bytes, and the length prefix of a script on the wire is one
    byte. *)

Module sample.
Record point : Type := mk_point {
  point_hash : data_chunk;
  point_index : Z
}.

Definition null_hash : data_chunk := repeat x00 32.

Definition point_is_null (p : point) : bool :=
  (point_index p =? max_uint32) && data_eqb (point_hash p) null_hash.

Definition count_checksig (s : data_chunk) : Z :=
  Z.of_nat (length (filter (Byte.eqb xac) s)).

Definition raw_size (s : data_chunk) (prefix : bool) : Z :=
  let n := size s in
  if prefix then variable_uint_size n + n else n.

Definition collaborators : Collaborators := {|
  output_point := point;
  script := data_chunk;
  output_point_default := mk_point null_hash max_uint32;
  script_default := [];
  is_null := point_is_null;
  script_serialized_size := raw_size;
  script_signature_operations := fun s _ => count_checksig s
|}.
#[local] Existing Instance collaborators.

Definition read_script (source : reader) : bool * data_chunk * reader :=
  let '(n, source) := read_byte source in
  if 253 <=? byte_value n then (false, [], source)
  else
    let '(s, source) := read_bytes (Z.to_nat (byte_value n)) source in
    (true, s, source).

Definition write_script (s : data_chunk) : data_chunk :=
  byte_of_Z (size s) :: s.

Definition read_input (this : input.t) (source : reader)
  : bool * input.t * reader :=
  let '(h, source) := read_bytes 32 source in
  let '(i, source) := read_4_bytes_little_endian source in
  let '(ok, s, source) := read_script source in
  let '(q, source) := read_4_bytes_little_endian source in
  if ok && good source
  then (true, input.mk (mk_point h i) s q, source)
  else (false, input.default, source).

Definition write_input (this : input.t) : data_chunk :=
  point_hash (input.previous_output this) ++
  write_4_bytes_little_endian (point_index (input.previous_output this)) ++
  write_script (input.script this) ++
  write_4_bytes_little_endian (input.sequence this).

Definition read_output (this : output.t) (source : reader)
  : bool * output.t * reader :=
  let '(v, source) := read_8_bytes_little_endian source in
  let '(ok, s, source) := read_script source in
  if ok && good source
  then (true, output.mk v s, source)
  else (false, output.default, source).

Definition write_output (this : output.t) : data_chunk :=
  to_little_endian 8 (output.value this) ++ write_script (output.script this).

Definition codec : ElementCodec := {|
  input_from_data := read_input;
  input_to_data := write_input;
  input_serialized_size := fun i => size (write_input i);
  output_from_data := read_output;
  output_to_data := write_output;
  output_serialized_size := fun o => size (write_output o);
  bitcoin_hash := fun data => data
|}.
#[local] Existing Instance codec.

(** Vector limits for elements of 64 and 32 bytes. *)
Definition limits : VectorLimits := {|
  input_max_size := max_ptrdiff / 64;
  output_max_size := max_ptrdiff / 32;
  input_max_size_range :=
    conj (fun H : (max_uint32 ?= max_ptrdiff / 64) = Gt =>
            ltac:(vm_compute in H; discriminate H))
         (fun H : (max_ptrdiff / 64 ?= max_ptrdiff) = Gt =>
            ltac:(vm_compute in H; discriminate H));
  output_max_size_range :=
    conj (fun H : (max_uint32 ?= max_ptrdiff / 32) = Gt =>
            ltac:(vm_compute in H; discriminate H))
         (fun H : (max_ptrdiff / 32 ?= max_ptrdiff) = Gt =>
            ltac:(vm_compute in H; discriminate H))
|}.
#[local] Existing Instance limits.

(** A stand-in for [std::hash<std::string>]. *)
Definition string_hash (s : list byte) : Z :=
  fold_left (fun h c => wrap_size_t (31 * h + byte_value c)) s 0.

(** Sample values. *)
Definition null_point : point := mk_point null_hash max_uint32.
Definition some_point : point := mk_point (repeat x11 32) 0.

Definition make_input (p : point) (s : data_chunk) (sequence : Z)
  : input.t :=
  input.mk (C := collaborators) p s sequence.
Definition make_output (value : Z) (s : data_chunk) : output.t :=
  output.mk (C := collaborators) value s.

Definition coinbase_input : input.t :=
  make_input null_point [x01; x02] max_input_sequence.
Definition signing_input : input.t := make_input some_point [xac] 0.
Definition final_input : input.t :=
  make_input some_point [xac] max_input_sequence.
End sample.

Module samples.
#[local] Existing Instance sample.collaborators.
#[local] Existing Instance sample.codec.
#[local] Existing Instance sample.limits.

(** One coinbase input, one output of 50 coins. *)
Definition coinbase_tx : transaction.t :=
  transaction.make 1 0 [sample.coinbase_input]
    [sample.make_output 5000000000 [x76; xac]].

(** Its serialization in the sample wire format, 62 bytes. *)
Definition coinbase_bytes : data_chunk :=
  [x01; x00; x00; x00] ++
  [x01] ++
    repeat x00 32 ++ [xff; xff; xff; xff] ++
    [x02; x01; x02] ++
    [xff; xff; xff; xff] ++
  [x01] ++
    [x00; xf2; x05; x2a; x01; x00; x00; x00] ++
    [x02; x76; xac] ++
  [x00; x00; x00; x00].

(** Version 1, no inputs, no outputs, locktime 0 ... *)
Definition empty_tx : transaction.t := transaction.make 1 0 [] [].
Definition empty_bytes : data_chunk :=
  [x01; x00; x00; x00; x00; x00; x00; x00; x00; x00].
(** ... followed by one more byte ... *)
Definition trailing_bytes : data_chunk := empty_bytes ++ [xff].
(** ... and with its input count written in three bytes. *)
Definition padded_bytes : data_chunk :=
  [x01; x00; x00; x00; xfd; x00; x00; x00; x00; x00; x00; x00].

(** A buffer that ends inside the version field. *)
Definition truncated_bytes : data_chunk := [x01; x00].

(** Version 1 followed by an input count of [2^64 - 1]. *)
Definition oversized_input_count_bytes : data_chunk :=
  [x01; x00; x00; x00] ++
  [xff; xff; xff; xff; xff; xff; xff; xff; xff].

(** Version 1, the coinbase input, and an output count of [2^64 - 1]. *)
Definition oversized_output_count_bytes : data_chunk :=
  [x01; x00; x00; x00] ++
  [x01] ++
    repeat x00 32 ++ [xff; xff; xff; xff] ++
    [x02; x01; x02] ++
    [xff; xff; xff; xff] ++
  [xff; xff; xff; xff; xff; xff; xff; xff; xff].

(** One input whose script holds one signature operation. *)
Definition signing_tx : transaction.t :=
  transaction.make 1 0 [sample.signing_input] [].

(** Locktime 1 with an input that is not final. *)
Definition locked_tx : transaction.t :=
  transaction.make 1 1 [sample.signing_input] [].


(** Outputs whose values add up beyond 64 bits. *)
Definition overflowing_tx : transaction.t :=
  transaction.make 1 0 []
    [sample.make_output max_uint64 []; sample.make_output 1 [];
     sample.make_output 0 []].

(** A transaction holding a cached digest. *)
Definition cached_tx : transaction.t :=
  transaction.mk 1 0 [] [] (Some [xaa]) 0.

(** The same version and hash, built valid and built invalid. *)
Definition address_a : payment_address.t :=
  payment_address.mk true x05 (repeat x2a 20).
Definition address_b : payment_address.t :=
  payment_address.mk false x05 (repeat x2a 20).
End samples.

(** ** Transactions reachable through the class interface

    What a user of [chain::transaction] can build: the constructors and
    factory, the public data members [version], [locktime], [inputs] and
    [outputs], which can be assigned directly, and the mutating member
    functions.  [hash_] and [sigops_] are private. *)

Section Reachable.
Context {C : Collaborators} {E : ElementCodec} {L : VectorLimits}.

Inductive reachable : transaction.t -> Prop :=
| reach_default :
    reachable transaction.default
| reach_make (version locktime : Z) (ins : list input.t)
    (outs : list output.t) :
    reachable (transaction.make version locktime ins outs)
| reach_copy (other : transaction.t) :
    reachable other -> reachable (transaction.copy other)
| reach_factory (data : data_chunk) (tx : transaction.t) :
    transaction.factory_from_data data = Some tx -> reachable tx
| reach_version (v : Z) (tx : transaction.t) :
    reachable tx -> reachable (transaction.set_version v tx)
| reach_locktime (v : Z) (tx : transaction.t) :
    reachable tx -> reachable (transaction.set_locktime v tx)
| reach_inputs (v : list input.t) (tx : transaction.t) :
    reachable tx -> reachable (transaction.set_inputs v tx)
| reach_outputs (v : list output.t) (tx : transaction.t) :
    reachable tx -> reachable (transaction.set_outputs v tx)
| reach_reset (tx : transaction.t) :
    reachable tx -> reachable (transaction.reset tx)
| reach_from_data (tx : transaction.t) (source : reader) :
    reachable tx ->
    reachable (snd (fst (transaction.from_data tx source)))
| reach_hash (tx : transaction.t) :
    reachable tx -> reachable (snd (transaction.hash tx))
| reach_move_assign (this other : transaction.t) :
    reachable this -> reachable other ->
    reachable (transaction.move_assign this other)
| reach_copy_assign (this other : transaction.t) :
    reachable this -> reachable other ->
    reachable (fst (transaction.copy_assign this other))
| reach_copy_assign_source (this other : transaction.t) :
    reachable this -> reachable other ->
    reachable (snd (transaction.copy_assign this other)).
End Reachable.

(** ** More of the sample instance *)

Module sample_values.
#[local] Existing Instance sample.collaborators.
#[local] Existing Instance sample.codec.
#[local] Existing Instance sample.limits.

(** The inputs and outputs the sample wire format can carry: a 32-byte
    point hash, 32-bit index and sequence, a 64-bit value, a script shorter
    than 253 bytes. *)
Definition input_ok (i : input.t) : Prop :=
  length (sample.point_hash (input.previous_output i)) = 32%nat /\
  0 <= sample.point_index (input.previous_output i) < 256 ^ 4 /\
  size (input.script i) < 253 /\
  0 <= input.sequence i < 256 ^ 4.

Definition output_ok (o : output.t) : Prop :=
  0 <= output.value o < 256 ^ 8 /\
  size (output.script o) < 253.

(** A transaction whose cached digest is not the digest of its content. *)
Definition stale_tx : transaction.t :=
  transaction.move_assign samples.cached_tx samples.coinbase_tx.

(** Two inputs with the maximum sequence and a locktime. *)
Definition conflict_tx : transaction.t :=
  transaction.make 1 100 [sample.final_input; sample.coinbase_input] [].

(** Locktime 100 and an input that is not final. *)
Definition waiting_tx : transaction.t :=
  transaction.make 1 100 [sample.signing_input] [].

(** A coinbase whose script is one byte long, below the minimum. *)
Definition short_coinbase_tx : transaction.t :=
  transaction.make 1 0
    [sample.make_input sample.null_point [x01] max_input_sequence] [].

(** The outputs of [samples.overflowing_tx] in another order. *)
Definition reordered_tx : transaction.t :=
  transaction.make 1 0 []
    [sample.make_output 0 []; sample.make_output max_uint64 [];
     sample.make_output 1 []].
End sample_values.
(** * Facts about bytes and the cursor *)

Lemma byte_value_range (b : byte) : 0 <= byte_value b < 256.
Proof.
  unfold byte_value. pose proof (Byte.to_N_bounded b). lia.
Qed.

Lemma byte_of_value (b : byte) : byte_of_Z (byte_value b) = b.
Proof.
  unfold byte_of_Z. pose proof (byte_value_range b) as Hr.
  rewrite Z.mod_small by exact Hr.
  unfold byte_value. rewrite N2Z.id, Byte.of_to_N. reflexivity.
Qed.

Lemma byte_value_of_Z (z : Z) : byte_value (byte_of_Z z) = z mod 256.
Proof.
  unfold byte_of_Z.
  assert (Hr : 0 <= z mod 256 < 256) by (apply Z.mod_pos_bound; lia).
  destruct (Byte.of_N (Z.to_N (z mod 256))) as [b|] eqn:E.
  - apply Byte.to_of_N in E. unfold byte_value. rewrite E. lia.
  - apply Byte.of_N_None_iff in E. lia.
Qed.

Lemma read_byte_good (r r' : reader) (b : byte) :
  read_byte r = (b, r') -> good r' = true ->
  good r = true /\ stream r = b :: stream r'.
Proof.
  unfold read_byte. destruct r as [s g]; simpl.
  destruct g; [destruct s as [|b0 rest]|]; intros H Hg;
    inversion H; subst; simpl in *; try discriminate; auto.
Qed.

Lemma byte_of_Z_cons (b : byte) (w : Z) :
  byte_of_Z (byte_value b + 256 * w) = b.
Proof.
  pose proof (byte_value_range b) as Hb.
  rewrite <- (byte_of_value b) at 2.
  unfold byte_of_Z.
  replace ((byte_value b + 256 * w) mod 256) with (byte_value b mod 256);
    [reflexivity|].
  Z.div_mod_to_equations. lia.
Qed.

Lemma div_256_cons (b : byte) (w : Z) :
  (byte_value b + 256 * w) / 256 = w.
Proof.
  pose proof (byte_value_range b) as Hb.
  Z.div_mod_to_equations. lia.
Qed.

Lemma read_little_endian_succ (n : nat) (r : reader) :
  read_little_endian (S n) r =
  let '(b, r1) := read_byte r in
  let '(v, r2) := read_little_endian n r1 in
  (byte_value b + 256 * v, r2).
Proof. reflexivity. Qed.

Lemma to_little_endian_succ (n : nat) (v : Z) :
  to_little_endian (S n) v = byte_of_Z v :: to_little_endian n (v / 256).
Proof. reflexivity. Qed.

Lemma read_little_endian_good (n : nat) :
  forall (r r' : reader) (v : Z),
    read_little_endian n r = (v, r') -> good r' = true ->
    good r = true /\
    stream r = to_little_endian n v ++ stream r' /\
    0 <= v < 256 ^ Z.of_nat n.
Proof.
  induction n as [|n IH]; intros r r' v H Hg.
  - cbn in H. inversion H; subst. cbn. repeat split; auto; lia.
  - rewrite read_little_endian_succ in H.
    destruct (read_byte r) as [b r1] eqn:Eb.
    destruct (read_little_endian n r1) as [w r2] eqn:Ew.
    assert (Hv : v = byte_value b + 256 * w) by congruence.
    assert (Hr : r2 = r') by congruence. clear H. subst v r2.
    destruct (IH _ _ _ Ew Hg) as (Hg1 & Hs1 & Hw).
    destruct (read_byte_good _ _ _ Eb Hg1) as (Hg0 & Hs0).
    pose proof (byte_value_range b) as Hb.
    split; [exact Hg0|]. split.
    + rewrite to_little_endian_succ.
      rewrite byte_of_Z_cons, div_256_cons, Hs0, Hs1. reflexivity.
    + rewrite Nat2Z.inj_succ, Z.pow_succ_r by lia. lia.
Qed.

Lemma length_to_little_endian (n : nat) (v : Z) :
  length (to_little_endian n v) = n.
Proof.
  revert v. induction n as [|n IH]; intros v; simpl; auto.
Qed.

Lemma length_write_variable_uint (v : Z) :
  Z.of_nat (length (write_variable_uint_little_endian v)) =
  variable_uint_size v.
Proof.
  unfold write_variable_uint_little_endian, variable_uint_size.
  destruct (v <? 253); [reflexivity|].
  destruct (v <=? 65535); [reflexivity|].
  destruct (v <=? 4294967295); reflexivity.
Qed.

Lemma read_bytes_good (n : nat) :
  forall (r r' : reader) (bs : data_chunk),
    read_bytes n r = (bs, r') -> good r' = true ->
    good r = true /\ stream r = bs ++ stream r' /\ length bs = n.
Proof.
  induction n as [|n IH]; intros r r' bs H Hg.
  - cbn in H. injection H as <- <-. auto.
  - cbn [read_bytes] in H.
    destruct (read_byte r) as [b r1] eqn:Eb.
    destruct (read_bytes n r1) as [bs1 r2] eqn:Ebs.
    injection H as <- <-.
    destruct (IH _ _ _ Ebs Hg) as (Hg1 & Hs1 & Hl).
    destruct (read_byte_good _ _ _ Eb Hg1) as (Hg0 & Hs0).
    split; [exact Hg0|]. split.
    + rewrite Hs0, Hs1. reflexivity.
    + cbn [length]. congruence.
Qed.

Lemma byte_of_Z_eq (b : byte) (z : Z) : byte_value b = z -> b = byte_of_Z z.
Proof. intros <-. symmetry. apply byte_of_value. Qed.

(** What a successful read of a compact-size integer consumed: bytes that
    decode to the value, and exactly the writer's bytes when the encoding
    is the shortest one. *)
Lemma read_variable_uint_good (r r' : reader) (v : Z) :
  read_variable_uint_little_endian r = (v, r') -> good r' = true ->
  good r = true /\ 0 <= v <= max_uint64 /\
  exists enc,
    stream r = enc ++ stream r' /\
    (variable_uint_minimal r = true ->
     enc = write_variable_uint_little_endian v).
Proof.
  intros H Hg. unfold variable_uint_minimal. rewrite H.
  unfold read_variable_uint_little_endian in H.
  destruct (read_byte r) as [b r1] eqn:Eb.
  pose proof (byte_value_range b) as Hb.
  unfold read_2_bytes_little_endian, read_4_bytes_little_endian,
    read_8_bytes_little_endian in H.
  unfold write_variable_uint_little_endian, max_uint64.
  destruct (byte_value b <? 253) eqn:H253.
  { apply Z.ltb_lt in H253. injection H as <- <-.
    destruct (read_byte_good _ _ _ Eb Hg) as (Hg0 & Hs0).
    split; [exact Hg0|]. split; [lia|].
    exists [b]. split; [rewrite Hs0; reflexivity|].
    intros _. apply Z.ltb_lt in H253. rewrite H253.
    rewrite byte_of_value. reflexivity. }
  apply Z.ltb_ge in H253.
  destruct (byte_value b =? 253) eqn:Hfd.
  { apply Z.eqb_eq in Hfd.
    destruct (read_little_endian_good _ _ _ _ H Hg) as (Hg1 & Hs1 & Hv).
    destruct (read_byte_good _ _ _ Eb Hg1) as (Hg0 & Hs0).
    change (256 ^ Z.of_nat 2) with 65536 in Hv.
    split; [exact Hg0|]. split; [lia|].
    exists (b :: to_little_endian 2 v).
    split; [rewrite Hs0, Hs1; reflexivity|].
    rewrite Hs0, Hs1. cbn [length]. rewrite length_app, length_to_little_endian.
    intro Hm. apply Nat.eqb_eq in Hm.
    rewrite (byte_of_Z_eq b 253 Hfd).
    destruct (v <? 253); [cbn [length] in Hm; lia|].
    destruct (v <=? 65535) eqn:H2; [reflexivity|].
    apply Z.leb_gt in H2. lia. }
  apply Z.eqb_neq in Hfd.
  destruct (byte_value b =? 254) eqn:Hfe.
  { apply Z.eqb_eq in Hfe.
    destruct (read_little_endian_good _ _ _ _ H Hg) as (Hg1 & Hs1 & Hv).
    destruct (read_byte_good _ _ _ Eb Hg1) as (Hg0 & Hs0).
    change (256 ^ Z.of_nat 4) with 4294967296 in Hv.
    split; [exact Hg0|]. split; [lia|].
    exists (b :: to_little_endian 4 v).
    split; [rewrite Hs0, Hs1; reflexivity|].
    rewrite Hs0, Hs1. cbn [length]. rewrite length_app, length_to_little_endian.
    intro Hm. apply Nat.eqb_eq in Hm.
    rewrite (byte_of_Z_eq b 254 Hfe).
    destruct (v <? 253); [cbn [length] in Hm; lia|].
    destruct (v <=? 65535);
      [cbn [length] in Hm; rewrite length_to_little_endian in Hm; lia|].
    destruct (v <=? 4294967295) eqn:H4; [reflexivity|].
    apply Z.leb_gt in H4. lia. }
  apply Z.eqb_neq in Hfe.
  assert (Hff : byte_value b = 255) by lia.
  destruct (read_little_endian_good _ _ _ _ H Hg) as (Hg1 & Hs1 & Hv).
  destruct (read_byte_good _ _ _ Eb Hg1) as (Hg0 & Hs0).
  change (256 ^ Z.of_nat 8) with 18446744073709551616 in Hv.
  split; [exact Hg0|]. split; [lia|].
  exists (b :: to_little_endian 8 v).
  split; [rewrite Hs0, Hs1; reflexivity|].
  rewrite Hs0, Hs1. cbn [length]. rewrite length_app, length_to_little_endian.
  intro Hm. apply Nat.eqb_eq in Hm.
  rewrite (byte_of_Z_eq b 255 Hff).
  destruct (v <? 253); [cbn [length] in Hm; lia|].
  destruct (v <=? 65535);
    [cbn [length] in Hm; rewrite length_to_little_endian in Hm; lia|].
  destruct (v <=? 4294967295);
    [cbn [length] in Hm; rewrite length_to_little_endian in Hm; lia|].
  reflexivity.
Qed.

(** * The transaction *)

Section TransactionFacts.
Context {C : Collaborators} {E : ElementCodec}.

Lemma reset_is_default (tx : transaction.t) :
  transaction.reset tx = transaction.default.
Proof. reflexivity. Qed.

Lemma is_valid_iff (tx : transaction.t) :
  transaction.is_valid tx = true <->
  transaction.version tx <> 0 \/ transaction.locktime tx <> 0 \/
  transaction.inputs tx <> [] \/ transaction.outputs tx <> [].
Proof.
  unfold transaction.is_valid, size.
  rewrite !orb_true_iff, !negb_true_iff, !Z.eqb_neq.
  assert (Hl : forall (A : Type) (l : list A),
             Z.of_nat (length l) <> 0 <-> l <> []).
  { intros A l. destruct l; cbn [length]; split; intro H;
      try congruence; try lia. }
  rewrite !Hl. tauto.
Qed.

(** C8.  [reset()] applied twice gives the state that one application
    gives, and right after [reset()] the transaction is not valid: its
    version and locktime are zero and it has no inputs and no outputs. *)
Theorem reset_idempotent (tx : transaction.t) :
  transaction.reset (transaction.reset tx) = transaction.reset tx /\
  transaction.is_valid (transaction.reset tx) = false /\
  transaction.version (transaction.reset tx) = 0 /\
  transaction.locktime (transaction.reset tx) = 0 /\
  transaction.inputs (transaction.reset tx) = [] /\
  transaction.outputs (transaction.reset tx) = [].
Proof.
  repeat split.
Qed.

(** C9.  Move-assignment overwrites version, locktime, inputs and
    outputs of the destination and leaves its cached hash and cached
    signature-operation count as they were; a digest cached on the
    destination before the assignment is what [hash()] returns after
    it. *)
Theorem move_assign_keeps_caches (this other : transaction.t) :
  let assigned := transaction.move_assign this other in
  transaction.version assigned = transaction.version other /\
  transaction.locktime assigned = transaction.locktime other /\
  transaction.inputs assigned = transaction.inputs other /\
  transaction.outputs assigned = transaction.outputs other /\
  transaction.hash_ assigned = transaction.hash_ this /\
  transaction.sigops_ assigned = transaction.sigops_ this /\
  (forall h : hash_digest,
      transaction.hash_ this = Some h ->
      fst (transaction.hash assigned) = h).
Proof.
  cbn zeta. repeat split.
  intros h Hh. unfold transaction.hash.
  change (transaction.hash_ (transaction.move_assign this other))
    with (transaction.hash_ this).
  rewrite Hh. reflexivity.
Qed.

Lemma at_index_single {A : Type} (v : list A) :
  size v = 1 -> exists x, v = [x] /\ at_index v 0 = Some x.
Proof.
  unfold size. destruct v as [|x [|y v]]; cbn [length]; intro H; try lia.
  exists x. split; reflexivity.
Qed.

Lemma is_coinbase_total (tx : transaction.t) :
  exists b, transaction.is_coinbase tx = Some b.
Proof.
  unfold transaction.is_coinbase.
  destruct (size (transaction.inputs tx) =? 1) eqn:Hs.
  - apply Z.eqb_eq in Hs. destruct (at_index_single _ Hs) as (x & _ & Hx).
    rewrite Hx. eexists; reflexivity.
  - eexists; reflexivity.
Qed.

Lemma is_coinbase_true (tx : transaction.t) :
  transaction.is_coinbase tx = Some true ->
  exists x, transaction.inputs tx = [x] /\
            is_null (input.previous_output x) = true.
Proof.
  unfold transaction.is_coinbase.
  destruct (size (transaction.inputs tx) =? 1) eqn:Hs; [|discriminate].
  apply Z.eqb_eq in Hs. destruct (at_index_single _ Hs) as (x & Hv & Hx).
  rewrite Hx. cbn [and_then]. intro H. exists x. split; congruence.
Qed.

(** C10.  [is_coinbase()] and [is_invalid_coinbase()] never read the
    input vector out of bounds: for every transaction both return a
    value, and when there is no element at index 0 both return false
    without reading it. *)
Theorem coinbase_reads_in_bounds (tx : transaction.t) :
  (exists b, transaction.is_coinbase tx = Some b) /\
  (exists b, transaction.is_invalid_coinbase tx = Some b) /\
  (at_index (transaction.inputs tx) 0 = None ->
   transaction.is_coinbase tx = Some false /\
   transaction.is_invalid_coinbase tx = Some false).
Proof.
  split; [apply is_coinbase_total|]. split.
  - unfold transaction.is_invalid_coinbase.
    destruct (transaction.is_coinbase tx) as [[|]|] eqn:Hc.
    + destruct (is_coinbase_true _ Hc) as (x & Hv & _).
      rewrite Hv. cbn [at_index nth_error and_then negb].
      eexists; reflexivity.
    + eexists; reflexivity.
    + destruct (is_coinbase_total tx) as (b & Hb). congruence.
  - intro Hnone.
    assert (Hc : transaction.is_coinbase tx = Some false).
    { unfold transaction.is_coinbase.
      destruct (size (transaction.inputs tx) =? 1) eqn:Hs; [|reflexivity].
      apply Z.eqb_eq in Hs. destruct (at_index_single _ Hs) as (x & _ & Hx).
      congruence. }
    split; [exact Hc|].
    unfold transaction.is_invalid_coinbase. rewrite Hc. reflexivity.
Qed.

End TransactionFacts.

Section Deserialization.
Context {C : Collaborators} {E : ElementCodec} {L : VectorLimits}.

(** The first element that fails to parse ends the loop with [false]. *)
Lemma from_data_each_break {A : Type}
    (element_from_data : A -> reader -> bool * A * reader)
    (result : bool) (x x' : A) (rest : list A) (source source' : reader) :
  element_from_data x source = (false, x', source') ->
  transaction.from_data_each element_from_data result (x :: rest) source =
  (false, x' :: rest, source').
Proof.
  intro H. cbn [transaction.from_data_each]. rewrite H. reflexivity.
Qed.

Lemma resize_within {A : Type} (max_size : Z) (v : list A) (n : Z) (d : A) :
  n <= max_size -> resize max_size v n d = Some (resize_to v n d).
Proof.
  intro H. unfold resize.
  destruct (Z.ltb_spec max_size n); [lia | reflexivity].
Qed.

Lemma resize_beyond {A : Type} (max_size : Z) (v : list A) (n : Z) (d : A) :
  max_size < n -> resize max_size v n d = None.
Proof.
  intro H. unfold resize.
  destruct (Z.ltb_spec max_size n); [reflexivity | lia].
Qed.

Ltac parse_stage_fails :=
  let H := fresh "H" in
  intro H; cbn in H; discriminate H.

(** The steps behind a successful parse, and the transaction they build. *)
Lemma from_data_steps (this tx : transaction.t) (source rest : reader) :
  transaction.from_data this source = (returned true, tx, rest) ->
  exists (v : Z) (s1 : reader) (n_in : Z) (s2 : reader)
         (ins : list input.t) (s3 : reader) (n_out : Z) (s4 : reader)
         (outs : list output.t) (s5 : reader) (lt : Z),
    read_4_bytes_little_endian source = (v, s1) /\ good s1 = true /\
    read_variable_uint_little_endian s1 = (n_in, s2) /\ good s2 = true /\
    transaction.from_data_each input_from_data true
      (resize_to [] n_in input.default) s2 = (true, ins, s3) /\
    read_variable_uint_little_endian s3 = (n_out, s4) /\ good s4 = true /\
    transaction.from_data_each output_from_data true
      (resize_to [] n_out output.default) s4 = (true, outs, s5) /\
    read_4_bytes_little_endian s5 = (lt, rest) /\ good rest = true /\
    tx = transaction.mk v lt ins outs None 0.
Proof.
  unfold transaction.from_data.
  destruct (read_4_bytes_little_endian source) as [v s1] eqn:Ev.
  destruct (good s1) eqn:Hg1; [|parse_stage_fails].
  destruct (read_variable_uint_little_endian s1) as [n_in s2] eqn:Ein.
  destruct (good s2) eqn:Hg2; [|parse_stage_fails].
  change (transaction.inputs
            (transaction.set_version v (transaction.reset this)))
    with (@nil input.t).
  unfold resize at 1.
  destruct (input_max_size <? n_in); [parse_stage_fails|].
  destruct (transaction.from_data_each input_from_data true
              (resize_to [] n_in input.default) s2)
    as [[r_in ins] s3] eqn:Eins.
  destruct r_in; [|parse_stage_fails].
  destruct (read_variable_uint_little_endian s3) as [n_out s4] eqn:Eout.
  destruct (good s4) eqn:Hg4; [|parse_stage_fails].
  change (transaction.outputs
            (transaction.set_inputs ins
               (transaction.set_version v (transaction.reset this))))
    with (@nil output.t).
  unfold resize at 1.
  destruct (output_max_size <? n_out); [parse_stage_fails|].
  destruct (transaction.from_data_each output_from_data true
              (resize_to [] n_out output.default) s4)
    as [[r_out outs] s5] eqn:Eouts.
  destruct r_out; [|parse_stage_fails].
  destruct (read_4_bytes_little_endian s5) as [lt s6] eqn:Elt.
  destruct (good s6) eqn:Hg6; [|parse_stage_fails].
  cbn [negb]. intro H. injection H as <- <-.
  exists v, s1, n_in, s2, ins, s3, n_out, s4, outs, s5, lt.
  repeat split; assumption.
Qed.

(** What [from_data] leaves behind when an exception leaves it: the
    version alone when the input count is beyond [max_size()], the version
    and the parsed inputs when the output count is. *)
Lemma from_data_thrown (this tx : transaction.t) (source rest : reader) :
  transaction.from_data this source = (length_error, tx, rest) ->
  (exists (v : Z) (s1 : reader) (n_in : Z),
      read_4_bytes_little_endian source = (v, s1) /\ good s1 = true /\
      read_variable_uint_little_endian s1 = (n_in, rest) /\
      good rest = true /\ input_max_size < n_in /\
      tx = transaction.mk v 0 [] [] None 0) \/
  (exists (v : Z) (s1 : reader) (n_in : Z) (s2 : reader)
          (ins : list input.t) (s3 : reader) (n_out : Z),
      read_4_bytes_little_endian source = (v, s1) /\ good s1 = true /\
      read_variable_uint_little_endian s1 = (n_in, s2) /\ good s2 = true /\
      transaction.from_data_each input_from_data true
        (resize_to [] n_in input.default) s2 = (true, ins, s3) /\
      read_variable_uint_little_endian s3 = (n_out, rest) /\
      good rest = true /\ output_max_size < n_out /\
      tx = transaction.mk v 0 ins [] None 0).
Proof.
  unfold transaction.from_data.
  destruct (read_4_bytes_little_endian source) as [v s1] eqn:Ev.
  destruct (good s1) eqn:Hg1; [|parse_stage_fails].
  destruct (read_variable_uint_little_endian s1) as [n_in s2] eqn:Ein.
  destruct (good s2) eqn:Hg2; [|parse_stage_fails].
  change (transaction.inputs
            (transaction.set_version v (transaction.reset this)))
    with (@nil input.t).
  unfold resize at 1.
  destruct (Z.ltb_spec input_max_size n_in) as [Hin|Hin].
  { intro H. injection H as <- <-. left.
    exists v, s1, n_in. repeat split; assumption. }
  destruct (transaction.from_data_each input_from_data true
              (resize_to [] n_in input.default) s2)
    as [[r_in ins] s3] eqn:Eins.
  destruct r_in; [|parse_stage_fails].
  destruct (read_variable_uint_little_endian s3) as [n_out s4] eqn:Eout.
  destruct (good s4) eqn:Hg4; [|parse_stage_fails].
  change (transaction.outputs
            (transaction.set_inputs ins
               (transaction.set_version v (transaction.reset this))))
    with (@nil output.t).
  unfold resize at 1.
  destruct (Z.ltb_spec output_max_size n_out) as [Hout|Hout].
  { intro H. injection H as <- <-. right.
    exists v, s1, n_in, s2, ins, s3, n_out. repeat split; assumption. }
  destruct (transaction.from_data_each output_from_data true
              (resize_to [] n_out output.default) s4)
    as [[r_out outs] s5] eqn:Eouts.
  destruct r_out; [|parse_stage_fails].
  destruct (read_4_bytes_little_endian s5) as [lt s6] eqn:Elt.
  parse_stage_fails.
Qed.

(** A returned [false] has gone through the final [reset()]. *)
Lemma from_data_false_default
    (this tx : transaction.t) (source rest : reader) :
  transaction.from_data this source = (returned false, tx, rest) ->
  tx = transaction.default.
Proof.
  unfold transaction.from_data.
  destruct (read_4_bytes_little_endian source) as [v s1].
  set (st1 := if good s1 then _ else _).
  destruct st1 as [[[r1|] t1] s2]; [|discriminate].
  set (st2 := if r1 then _ else _).
  destruct st2 as [[[r2|] t2] s3]; [|discriminate].
  set (st3 := if r2 then _ else _).
  destruct st3 as [[r3 t3] s4].
  intro H. injection H as Hr Ht Hs. subst r3 tx rest.
  cbn [negb]. apply reset_is_default.
Qed.

Lemma read_oversized_input_count :
  read_4_bytes_little_endian
    (data_source samples.oversized_input_count_bytes) =
    (1, mk_reader [xff; xff; xff; xff; xff; xff; xff; xff; xff] true) /\
  read_variable_uint_little_endian
    (mk_reader [xff; xff; xff; xff; xff; xff; xff; xff; xff] true) =
    (max_uint64, mk_reader [] true).
Proof. split; vm_compute; reflexivity. Qed.

(** C3 (defect).  On a buffer holding version 1 and an input count of
    [2^64 - 1], which no vector can hold, [inputs.resize] throws
    [std::length_error]: [from_data] returns no [false] and never reaches
    its final [reset()].  The transaction is left with version 1, is valid,
    and is not in the default state, where the claim has [from_data]
    return false on a malformed count and leave the all-default state. *)
Theorem from_data_throws_on_oversized_count (this : transaction.t) :
  transaction.from_data this
    (data_source samples.oversized_input_count_bytes) =
    (length_error, transaction.mk 1 0 [] [] None 0, mk_reader [] true) /\
  transaction.is_valid (transaction.mk 1 0 [] [] None 0) = true /\
  transaction.mk 1 0 [] [] None 0 <> transaction.default.
Proof.
  split; [|split; [reflexivity | discriminate]].
  destruct read_oversized_input_count as [Hversion Hcount].
  unfold transaction.from_data. rewrite Hversion. cbn [good].
  rewrite Hcount. cbn [good].
  rewrite resize_beyond; [reflexivity|].
  pose proof input_max_size_range as Hrange.
  unfold max_ptrdiff, max_uint64 in *. lia.
Qed.
End Deserialization.

Section Aggregation.
Context {C : Collaborators} {E : ElementCodec}.

Lemma value_sum_nonneg (outs : list output.t) :
  Forall (fun output => is_uint64 (output.value output)) outs ->
  0 <= transaction.value_sum outs.
Proof.
  induction 1 as [|o outs Ho _ IH]; cbn [transaction.value_sum fold_right].
  - lia.
  - fold (transaction.value_sum outs). unfold is_uint64 in Ho. lia.
Qed.

Lemma value_sum_firstn (outs : list output.t) (k : nat) :
  Forall (fun output => is_uint64 (output.value output)) outs ->
  transaction.value_sum (firstn k outs) <= transaction.value_sum outs.
Proof.
  intro H. revert k.
  induction H as [|o outs Ho Hall IH]; intros [|k]; cbn [firstn];
    cbn [transaction.value_sum fold_right]; try lia.
  - fold (transaction.value_sum outs).
    pose proof (value_sum_nonneg _ Hall). unfold is_uint64 in Ho. lia.
  - fold (transaction.value_sum outs).
    fold (transaction.value_sum (firstn k outs)).
    specialize (IH k). lia.
Qed.

Lemma saturating_step (total value : Z) :
  0 <= total <= max_uint64 -> is_uint64 value ->
  (if total >=? wrap64 (max_uint64 - value) then max_uint64
   else wrap64 (total + value)) = Z.min max_uint64 (total + value).
Proof.
  unfold is_uint64, wrap64, max_uint64. intros Ht Hv.
  rewrite (Z.mod_small (2 ^ 64 - 1 - value)) by lia.
  destruct (total >=? 2 ^ 64 - 1 - value) eqn:Hc.
  - apply Z.geb_le in Hc. lia.
  - rewrite Z.geb_leb in Hc. apply Z.leb_gt in Hc.
    rewrite Z.mod_small by lia. lia.
Qed.

Lemma accumulate_values (outs : list output.t) (total : Z) :
  0 <= total <= max_uint64 ->
  Forall (fun output => is_uint64 (output.value output)) outs ->
  fold_left
    (fun (total : Z) (output : output.t) =>
       let value := output.value output in
       if total >=? wrap64 (max_uint64 - value) then max_uint64
       else wrap64 (total + value)) outs total =
  Z.min max_uint64 (total + transaction.value_sum outs).
Proof.
  intros Ht H. revert total Ht.
  induction H as [|o outs Ho Hall IH]; intros total Ht.
  - cbn [fold_left transaction.value_sum fold_right]. lia.
  - cbn [fold_left]. cbv zeta.
    rewrite (saturating_step total (output.value o) Ht Ho).
    rewrite IH by (unfold is_uint64 in Ho; lia).
    cbn [transaction.value_sum fold_right].
    fold (transaction.value_sum outs).
    pose proof (value_sum_nonneg _ Hall). unfold is_uint64 in Ho. lia.
Qed.

(** C6.  [total_output_value()] is the exact sum of the output values
    when that sum fits in 64 bits, and the maximum 64-bit value as soon
    as the sum of the first [k] outputs exceeds it, for any [k]: the
    clamp stays through the rest of the fold. *)
Theorem total_output_value_saturates (tx : transaction.t) :
  Forall (fun output => is_uint64 (output.value output))
    (transaction.outputs tx) ->
  transaction.total_output_value tx =
    Z.min max_uint64 (transaction.value_sum (transaction.outputs tx)) /\
  (transaction.value_sum (transaction.outputs tx) <= max_uint64 ->
   transaction.total_output_value tx =
     transaction.value_sum (transaction.outputs tx)) /\
  (forall k : nat,
      transaction.value_sum (firstn k (transaction.outputs tx))
        > max_uint64 ->
      transaction.total_output_value tx = max_uint64).
Proof.
  intro H.
  assert (Hm : transaction.total_output_value tx =
               Z.min max_uint64
                 (transaction.value_sum (transaction.outputs tx))).
  { unfold transaction.total_output_value, accumulate.
    rewrite accumulate_values; [reflexivity | unfold max_uint64; lia | exact H]. }
  split; [exact Hm|]. split.
  - intro Hle. rewrite Hm. lia.
  - intros k Hk. rewrite Hm.
    pose proof (value_sum_firstn _ k H). lia.
Qed.

Lemma signature_operations_is_cache (tx : transaction.t) :
  transaction.signature_operations tx = transaction.sigops_ tx.
Proof.
  unfold transaction.signature_operations.
  destruct (negb (transaction.sigops_ tx =? 0)); reflexivity.
Qed.

Lemma signature_operations_fresh
    (version locktime : Z) (ins : list input.t) (outs : list output.t) :
  transaction.signature_operations
    (transaction.make version locktime ins outs) = 0.
Proof. apply signature_operations_is_cache. Qed.
End Aggregation.

Section Finality.
Context {C : Collaborators} {E : ElementCodec}.

Lemma all_inputs_final (ins : list input.t) :
  forallb input.is_final ins = true <->
  (forall input, In input ins -> input.sequence input = max_input_sequence).
Proof.
  rewrite forallb_forall. unfold input.is_final.
  split; intros H i Hi; specialize (H i Hi); apply Z.eqb_eq; exact H.
Qed.

(** C4 (amended).  [is_final] is true when locktime is 0; otherwise the
    comparison basis is [block_height] reduced to 32 bits when locktime
    is below the locktime threshold, and [block_time] when it is not; a
    locktime strictly below the basis gives true, and otherwise the
    result is true exactly when every input has its sequence at the
    maximum sentinel.  For a block height that fits 32 bits the basis is
    the block height itself. *)
Theorem is_final_truncated_height
    (tx : transaction.t) (block_height block_time : Z) :
  (transaction.is_final tx block_height block_time = true <->
   transaction.is_final_spec tx (wrap32 block_height) block_time) /\
  (0 <= block_height <= max_uint32 ->
   (transaction.is_final tx block_height block_time = true <->
    transaction.is_final_spec tx block_height block_time)).
Proof.
  assert (Hgen : transaction.is_final tx block_height block_time = true <->
            transaction.is_final_spec tx (wrap32 block_height) block_time).
  { unfold transaction.is_final, transaction.is_final_spec.
    destruct (transaction.locktime tx =? 0) eqn:H0.
    - apply Z.eqb_eq in H0. tauto.
    - apply Z.eqb_neq in H0.
      set (basis := if transaction.locktime tx <? locktime_threshold
                    then wrap32 block_height else block_time).
      destruct (transaction.locktime tx <? basis) eqn:Hlt.
      + apply Z.ltb_lt in Hlt. tauto.
      + apply Z.ltb_ge in Hlt. rewrite all_inputs_final.
        split; [tauto|]. intros [H|[H|H]]; [contradiction|lia|exact H]. }
  split; [exact Hgen|].
  intro Hr. unfold wrap32 in Hgen.
  rewrite Z.mod_small in Hgen by (unfold max_uint32 in Hr; lia).
  exact Hgen.
Qed.
End Finality.

(** * Serialization round trip *)

Lemma fold_left_append {A : Type} (f : A -> data_chunk) (l : list A)
    (sink : data_chunk) :
  fold_left (fun sink x => sink ++ f x) l sink = sink ++ concat (map f l).
Proof.
  revert sink. induction l as [|x l IH]; intro sink; cbn [fold_left map concat].
  - rewrite app_nil_r. reflexivity.
  - rewrite IH, app_assoc. reflexivity.
Qed.

Lemma wrap64_add_l (a b : Z) : wrap64 (wrap64 a + b) = wrap64 (a + b).
Proof. unfold wrap64. apply Zplus_mod_idemp_l. Qed.

Lemma fold_left_sizes {A : Type} (f : A -> data_chunk) (g : A -> Z)
    (l : list A) (total : Z) :
  (forall x, g x = size (f x)) ->
  fold_left (fun total x => wrap64 (total + g x)) l (wrap64 total) =
  wrap64 (total + size (concat (map f l))).
Proof.
  intro Hg. revert total.
  induction l as [|x l IH]; intro total; cbn [fold_left map concat].
  - unfold size. cbn [length]. rewrite Z.add_0_r. reflexivity.
  - rewrite wrap64_add_l, IH, Hg. unfold size.
    rewrite length_app, Nat2Z.inj_add. f_equal. lia.
Qed.

Lemma length_resize_empty {A : Type} (n : Z) (d : A) :
  0 <= n -> size (resize_to [] n d) = n.
Proof.
  intro Hn. unfold resize_to, size.
  rewrite firstn_nil, app_nil_l, repeat_length. cbn [length]. lia.
Qed.

Section ElementLoop.
Context {A : Type}.
Variable element_from_data : A -> reader -> bool * A * reader.
Variable element_to_data : A -> data_chunk.

(** An element that parses successfully re-serializes to the bytes it
    consumed. *)
Hypothesis element_round_trip :
  forall (this this' : A) (source source' : reader),
    element_from_data this source = (true, this', source') ->
    good source' = true ->
    good source = true /\
    stream source = element_to_data this' ++ stream source'.

Lemma from_data_each_good (elements : list A) :
  forall (result : bool) (elements' : list A) (source source' : reader),
    transaction.from_data_each element_from_data result elements source =
      (true, elements', source') ->
    good source' = true ->
    good source = true /\
    stream source =
      concat (map element_to_data elements') ++ stream source' /\
    length elements' = length elements.
Proof.
  induction elements as [|x rest IH];
    intros result elements' source source' H Hg;
    cbn [transaction.from_data_each] in H.
  - injection H as _ <- <-. auto.
  - destruct (element_from_data x source) as [[r1 x'] s1] eqn:Ex.
    destruct r1; cbn [negb] in H; [|discriminate].
    destruct (transaction.from_data_each element_from_data true rest s1)
      as [[r2 rest'] s2] eqn:Er.
    injection H as -> <- <-.
    destruct (IH _ _ _ _ Er Hg) as (Hg1 & Hs1 & Hl).
    destruct (element_round_trip _ _ _ _ Ex Hg1) as (Hg0 & Hs0).
    split; [exact Hg0|]. split.
    + cbn [map concat]. rewrite Hs0, Hs1, app_assoc. reflexivity.
    + cbn [length]. congruence.
Qed.
End ElementLoop.

Section RoundTrip.
Context {C : Collaborators} {E : ElementCodec} {L : VectorLimits}.

(** The contracts of the input and output wire formats. *)
Hypothesis input_round_trip :
  forall (this this' : input.t) (source source' : reader),
    input_from_data this source = (true, this', source') ->
    good source' = true ->
    good source = true /\
    stream source = input_to_data this' ++ stream source'.
Hypothesis output_round_trip :
  forall (this this' : output.t) (source source' : reader),
    output_from_data this source = (true, this', source') ->
    good source' = true ->
    good source = true /\
    stream source = output_to_data this' ++ stream source'.
Hypothesis input_size :
  forall this : input.t,
    input_serialized_size this = size (input_to_data this).
Hypothesis output_size :
  forall this : output.t,
    output_serialized_size this = size (output_to_data this).

Lemma to_data_layout (tx : transaction.t) :
  transaction.to_data tx =
  write_4_bytes_little_endian (transaction.version tx) ++
  write_variable_uint_little_endian (size (transaction.inputs tx)) ++
  concat (map input_to_data (transaction.inputs tx)) ++
  write_variable_uint_little_endian (size (transaction.outputs tx)) ++
  concat (map output_to_data (transaction.outputs tx)) ++
  write_4_bytes_little_endian (transaction.locktime tx).
Proof.
  unfold transaction.to_data, transaction.to_data_sink. cbv zeta.
  rewrite !fold_left_append, app_nil_l, <- !app_assoc. reflexivity.
Qed.

Lemma serialized_size_wraps (tx : transaction.t) :
  transaction.serialized_size tx = wrap64 (size (transaction.to_data tx)).
Proof.
  unfold transaction.serialized_size. cbv zeta.
  rewrite (fold_left_sizes input_to_data) by exact input_size.
  rewrite wrap64_add_l.
  rewrite (fold_left_sizes output_to_data) by exact output_size.
  rewrite to_data_layout. f_equal. unfold size.
  rewrite !length_app, !Nat2Z.inj_add.
  rewrite <- !length_write_variable_uint.
  unfold write_4_bytes_little_endian.
  rewrite !length_to_little_endian. unfold size. lia.
Qed.

(** A successful parse consumed, up to the encoding of the two counts,
    the serialization of the transaction it produced. *)
Lemma from_data_consumed
    (this tx : transaction.t) (source rest : reader) :
  transaction.from_data this source = (returned true, tx, rest) ->
  transaction.counts_minimal source = true ->
  good source = true /\
  stream source = transaction.to_data tx ++ stream rest.
Proof.
  intros Hparse Hmin. apply from_data_steps in Hparse.
  destruct Hparse
    as (v & s1 & n_in & s2 & ins & s3 & n_out & s4 & outs & s5 & lt
        & Ev & Hg1 & Ein & Hg2 & Eins & Eout & Hg4 & Eouts & Elt & Hg6 & ->).
  unfold transaction.counts_minimal in Hmin. rewrite Ev, Ein, Eins in Hmin.
  apply andb_true_iff in Hmin. destruct Hmin as [Hmin_in Hmin_out].
  (* walk the parse backwards, from the last read to the first *)
  destruct (read_little_endian_good _ _ _ _ Elt Hg6) as (Hg5 & Hs5 & _).
  destruct (from_data_each_good output_from_data output_to_data
              output_round_trip _ _ _ _ _ Eouts Hg5) as (_ & Hs4 & Hlen_out).
  destruct (read_variable_uint_good _ _ _ Eout Hg4)
    as (Hg3 & Hn_out & enc_out & Hs3 & Henc_out).
  destruct (from_data_each_good input_from_data input_to_data
              input_round_trip _ _ _ _ _ Eins Hg3) as (_ & Hs2 & Hlen_in).
  destruct (read_variable_uint_good _ _ _ Ein Hg2)
    as (_ & Hn_in & enc_in & Hs1 & Henc_in).
  destruct (read_little_endian_good _ _ _ _ Ev Hg1) as (Hg0 & Hs0 & _).
  split; [exact Hg0|].
  rewrite to_data_layout.
  cbn [transaction.version transaction.locktime transaction.inputs
       transaction.outputs].
  assert (Hsize_in : size ins = n_in).
  { rewrite <- (length_resize_empty n_in input.default) by lia.
    unfold size. congruence. }
  assert (Hsize_out : size outs = n_out).
  { rewrite <- (length_resize_empty n_out output.default) by lia.
    unfold size. congruence. }
  rewrite Hsize_in, Hsize_out.
  rewrite <- (Henc_in Hmin_in), <- (Henc_out Hmin_out).
  unfold write_4_bytes_little_endian.
  rewrite Hs0, Hs1, Hs2, Hs3, Hs4, Hs5, <- !app_assoc. reflexivity.
Qed.

(** C2 (amended).  If [from_data] succeeds on a transaction [tx] and has
    consumed the whole of the bytes [data], both element counts in
    [data] being in shortest compact-size form and the input and output
    wire formats themselves round-tripping and reporting their own
    sizes, then [to_data(tx)] is exactly [data] and [serialized_size(tx)]
    is its length.  For every transaction, [serialized_size()] is the
    length of the buffer [to_data()] produces (a length that fits 64
    bits). *)
Theorem from_data_to_data_round_trip :
  (forall (data : data_chunk) (this tx : transaction.t) (rest : reader),
      transaction.from_data this (data_source data) =
        (returned true, tx, rest) ->
      stream rest = [] ->
      transaction.counts_minimal (data_source data) = true ->
      size data <= max_uint64 ->
      transaction.to_data tx = data /\
      transaction.serialized_size tx = size data) /\
  (forall tx : transaction.t,
      size (transaction.to_data tx) <= max_uint64 ->
      transaction.serialized_size tx = size (transaction.to_data tx)).
Proof.
  assert (Hsize : forall tx : transaction.t,
             size (transaction.to_data tx) <= max_uint64 ->
             transaction.serialized_size tx =
             size (transaction.to_data tx)).
  { intros tx Hfit. rewrite serialized_size_wraps. unfold wrap64.
    apply Z.mod_small. unfold size, max_uint64 in *. lia. }
  split; [|exact Hsize].
  intros data this tx rest Hparse Hrest Hmin Hfit.
  destruct (from_data_consumed _ _ _ _ Hparse Hmin) as (_ & Hs).
  cbn [stream data_source] in Hs. rewrite Hrest, app_nil_r in Hs.
  split; [congruence|].
  rewrite Hsize; rewrite <- Hs; [reflexivity | exact Hfit].
Qed.
End RoundTrip.

(** * The payment address *)

Lemma data_eqb_eq (a b : list byte) : data_eqb a b = true <-> a = b.
Proof.
  revert b. induction a as [|x a IH]; intros [|y b]; cbn [data_eqb];
    try (split; congruence).
  rewrite andb_true_iff, IH. split.
  - intros [Hx Hab]. apply Byte.byte_dec_bl in Hx. congruence.
  - intro H. injection H as Hx Hab. split; [|exact Hab].
    apply Byte.byte_dec_lb. exact Hx.
Qed.

Section AddressFacts.
Variable functor : list byte -> Z.

Lemma equal_iff (left right : payment_address.t) :
  payment_address.equal left right = true <->
  payment_address.version left = payment_address.version right /\
  payment_address.hash left = payment_address.hash right.
Proof.
  unfold payment_address.equal.
  rewrite andb_true_iff, data_eqb_eq. split.
  - intros [Hv Hh]. split; [apply Byte.byte_dec_bl; exact Hv | exact Hh].
  - intros [Hv Hh]. split; [apply Byte.byte_dec_lb; exact Hv | exact Hh].
Qed.

Lemma std_hash_buffer (address : payment_address.t) :
  payment_address.well_formed address ->
  payment_address.std_hash functor address =
  functor (payment_address.version address ::
           payment_address.hash address).
Proof.
  unfold payment_address.well_formed, payment_address.std_hash,
    payment_address.copy_to, payment_address.short_hash_size.
  intro Hlen. cbv zeta. rewrite Hlen. f_equal.
  cbn. rewrite app_nil_r. reflexivity.
Qed.

(** C5.  [operator==] is true exactly for two addresses with the same
    version and the same hash; the [std::hash] adapter hashes the buffer
    made of the version byte followed by the 20 hash bytes, so it
    depends on the (version, hash) projection alone, whatever the
    validity flag; two addresses equal under [operator==] get the same
    key. *)
Theorem equal_addresses_same_key (left right : payment_address.t) :
  (payment_address.equal left right = true <->
   payment_address.projection left = payment_address.projection right) /\
  (payment_address.equal left right = true ->
   payment_address.std_hash functor left =
   payment_address.std_hash functor right) /\
  (payment_address.well_formed left ->
   payment_address.std_hash functor left =
   functor (fst (payment_address.projection left) ::
            snd (payment_address.projection left))).
Proof.
  split; [|split].
  - rewrite equal_iff. unfold payment_address.projection.
    split; [intros [Hv Hh]; congruence | intro H; injection H; auto].
  - intro Heq. apply equal_iff in Heq. destruct Heq as [Hv Hh].
    unfold payment_address.std_hash. rewrite Hv, Hh. reflexivity.
  - intro Hwf. apply std_hash_buffer. exact Hwf.
Qed.
End AddressFacts.

(** * Further properties of the transaction *)

Section ObjectState.
Context {C : Collaborators} {E : ElementCodec} {L : VectorLimits}.

(** X1.  The outcome of [from_data] (result, transaction and cursor) does
    not depend on what the transaction held before the call. *)
Theorem from_data_forgets_previous_state
    (this this' : transaction.t) (source : reader) :
  transaction.from_data this source = transaction.from_data this' source.
Proof.
  unfold transaction.from_data. rewrite !reset_is_default. reflexivity.
Qed.

Lemma from_data_caches_empty
    (this tx : transaction.t) (source rest : reader) (result : completion) :
  transaction.from_data this source = (result, tx, rest) ->
  transaction.hash_ tx = None /\ transaction.sigops_ tx = 0.
Proof.
  intro H. destruct result as [[|]|].
  - apply from_data_steps in H.
    destruct H as (v & s1 & n_in & s2 & ins & s3 & n_out & s4 & outs & s5
                   & lt & _ & _ & _ & _ & _ & _ & _ & _ & _ & _ & ->).
    split; reflexivity.
  - apply from_data_false_default in H. subst tx. split; reflexivity.
  - apply from_data_thrown in H.
    destruct H as [(v & s1 & n_in & _ & _ & _ & _ & _ & ->)
                  |(v & s1 & n_in & s2 & ins & s3 & n_out
                    & _ & _ & _ & _ & _ & _ & _ & _ & ->)];
      split; reflexivity.
Qed.

(** X2.  However [from_data] ends, it leaves both caches empty, so the
    next [hash()] is the digest of the serialization of what was parsed. *)
Theorem from_data_clears_caches
    (this tx : transaction.t) (source rest : reader) (result : completion) :
  transaction.from_data this source = (result, tx, rest) ->
  transaction.hash_ tx = None /\
  transaction.sigops_ tx = 0 /\
  fst (transaction.hash tx) = bitcoin_hash (transaction.to_data tx).
Proof.
  intro H.
  pose proof (from_data_caches_empty _ _ _ _ _ H) as Hc.
  destruct Hc as [Hh Hs]. repeat split; try assumption.
  unfold transaction.hash. rewrite Hh. reflexivity.
Qed.

(** X3.  [hash()] memoizes: after one call the object holds the digest
    returned, a second call returns the same digest and changes nothing,
    and no call changes the serialization.  On an empty cache the digest is
    that of the serialization. *)
Theorem hash_memoizes (tx : transaction.t) :
  let first := transaction.hash tx in
  let second := transaction.hash (snd first) in
  fst second = fst first /\
  snd second = snd first /\
  transaction.hash_ (snd first) = Some (fst first) /\
  transaction.to_data (snd first) = transaction.to_data tx /\
  (transaction.hash_ tx = None ->
   fst first = bitcoin_hash (transaction.to_data tx)).
Proof.
  cbv zeta.
  destruct (transaction.hash_ tx) as [h|] eqn:Hh.
  - assert (H1 : transaction.hash tx = (h, tx))
      by (unfold transaction.hash; rewrite Hh; reflexivity).
    rewrite H1. cbn [fst snd]. rewrite H1. cbn [fst snd].
    repeat split; [exact Hh | congruence].
  - set (d := bitcoin_hash (transaction.to_data tx)).
    assert (H1 : transaction.hash tx =
                 (d, transaction.set_hash (Some d) tx))
      by (unfold transaction.hash; rewrite Hh; reflexivity).
    rewrite H1. cbn [fst snd].
    assert (H2 : transaction.hash (transaction.set_hash (Some d) tx) =
                 (d, transaction.set_hash (Some d) tx)) by reflexivity.
    rewrite H2. cbn [fst snd]. repeat split.
Qed.
End ObjectState.

Section Assignment.
Context {C : Collaborators} {E : ElementCodec} {L : VectorLimits}.

Lemma to_data_fields (a b : transaction.t) :
  transaction.version a = transaction.version b ->
  transaction.locktime a = transaction.locktime b ->
  transaction.inputs a = transaction.inputs b ->
  transaction.outputs a = transaction.outputs b ->
  transaction.to_data a = transaction.to_data b /\
  transaction.serialized_size a = transaction.serialized_size b.
Proof.
  intros Hv Hl Hi Ho.
  unfold transaction.to_data, transaction.to_data_sink,
    transaction.serialized_size.
  rewrite Hv, Hl, Hi, Ho. split; reflexivity.
Qed.

(** X4.  Copy-assignment gives the destination the source's fields and
    signature-operation cache, hence its serialization, and stores in the
    destination the digest that [hash()] returns on the source; the source
    is left as that [hash()] call leaves it.  Afterwards [hash()] returns
    the same digest on both, and when the source had no cached digest it is
    the digest of the destination's new content. *)
Theorem copy_assign_shares_digest (this other : transaction.t) :
  let assigned := fst (transaction.copy_assign this other) in
  let source := snd (transaction.copy_assign this other) in
  transaction.to_data assigned = transaction.to_data other /\
  transaction.sigops_ assigned = transaction.sigops_ other /\
  transaction.hash_ assigned = Some (fst (transaction.hash other)) /\
  source = snd (transaction.hash other) /\
  fst (transaction.hash assigned) = fst (transaction.hash source) /\
  (transaction.hash_ other = None ->
   fst (transaction.hash assigned) =
   bitcoin_hash (transaction.to_data assigned)).
Proof.
  cbv zeta. unfold transaction.copy_assign.
  destruct (transaction.hash other) as [h other'] eqn:Hh.
  cbn [fst snd].
  assert (Hsrc : transaction.hash other' = (h, other')).
  { unfold transaction.hash in Hh |- *.
    destruct (transaction.hash_ other) as [h0|] eqn:Hc.
    - injection Hh as <- <-. rewrite Hc. reflexivity.
    - injection Hh as <- <-. reflexivity. }
  split; [apply to_data_fields; reflexivity|].
  split; [reflexivity|]. split; [reflexivity|]. split; [reflexivity|].
  split; [rewrite Hsrc; reflexivity|].
  intro Hnone. unfold transaction.hash in Hh. rewrite Hnone in Hh.
  injection Hh as <- _. reflexivity.
Qed.

(** X5.  The copy and move constructors take the four fields and no
    cache: the new object serializes as the original, and its [hash()] is
    the digest of that serialization whatever digest the original had
    cached. *)
Theorem copy_constructor_drops_caches (other : transaction.t) :
  transaction.to_data (transaction.copy other) = transaction.to_data other /\
  transaction.serialized_size (transaction.copy other) =
    transaction.serialized_size other /\
  transaction.sigops_ (transaction.copy other) = 0 /\
  fst (transaction.hash (transaction.copy other)) =
    bitcoin_hash (transaction.to_data other).
Proof.
  destruct (to_data_fields (transaction.copy other) other)
    as [Hd Hs]; try reflexivity.
  repeat split; assumption.
Qed.

(** X16.  After a move-assignment the destination serializes as the
    source does, with the same size and the same signature hash for every
    sighash type, and is valid exactly when the source is. *)
Theorem move_assign_transfers_content
    (this other : transaction.t) (sighash_type : Z) :
  let assigned := transaction.move_assign this other in
  transaction.to_data assigned = transaction.to_data other /\
  transaction.serialized_size assigned = transaction.serialized_size other /\
  transaction.hash_sighash assigned sighash_type =
    transaction.hash_sighash other sighash_type /\
  transaction.is_valid assigned = transaction.is_valid other.
Proof.
  cbv zeta.
  destruct (to_data_fields (transaction.move_assign this other) other)
    as [Hd Hs]; try reflexivity.
  repeat split; assumption.
Qed.

(** X6.  No operation of the class gives [sigops_] a value other than 0:
    for every transaction reachable through the constructors, the factory,
    the public fields and the member functions, [signature_operations()]
    returns 0. *)
Theorem reachable_signature_operations_zero (tx : transaction.t) :
  reachable tx ->
  transaction.sigops_ tx = 0 /\ transaction.signature_operations tx = 0.
Proof.
  intro Hreach.
  assert (Hs : transaction.sigops_ tx = 0).
  { induction Hreach
      as [ | | | data tx Hfactory | | | | | | tx source _ _ | tx _ IH
         | | this other _ _ _ IH | this other _ _ _ IH ];
      try reflexivity; try assumption.
    - unfold transaction.factory_from_data, transaction.from_data_chunk
        in Hfactory.
      destruct (transaction.from_data transaction.default (data_source data))
        as [[r t] s] eqn:Hrun.
      destruct r; [|discriminate]. injection Hfactory as <-.
      apply (from_data_caches_empty _ _ _ _ _ Hrun).
    - destruct (transaction.from_data tx source) as [[r t] s] eqn:Hrun.
      cbn [fst snd]. apply (from_data_caches_empty _ _ _ _ _ Hrun).
    - unfold transaction.hash.
      destruct (transaction.hash_ tx); cbn [snd]; assumption.
    - unfold transaction.copy_assign.
      destruct (transaction.hash other) as [h other'].
      cbn [fst]. assumption.
    - unfold transaction.copy_assign, transaction.hash.
      destruct (transaction.hash_ other); cbn [snd]; assumption. }
  split; [exact Hs|].
  rewrite signature_operations_is_cache. exact Hs.
Qed.
End Assignment.

(** * Parsing what was serialized *)

Lemma read_to_little_endian (n : nat) :
  forall (v : Z) (rest : data_chunk),
    0 <= v < 256 ^ Z.of_nat n ->
    read_little_endian n (mk_reader (to_little_endian n v ++ rest) true) =
    (v, mk_reader rest true).
Proof.
  induction n as [|n IH]; intros v rest Hv.
  - cbn [read_little_endian to_little_endian app].
    change (256 ^ Z.of_nat 0) with 1 in Hv. f_equal. lia.
  - rewrite Nat2Z.inj_succ, Z.pow_succ_r in Hv by lia.
    rewrite read_little_endian_succ, to_little_endian_succ.
    cbn [app read_byte good stream].
    rewrite IH by (Z.div_mod_to_equations; lia).
    f_equal. rewrite byte_value_of_Z. Z.div_mod_to_equations. lia.
Qed.

Lemma read_write_variable_uint (v : Z) (rest : data_chunk) :
  0 <= v <= max_uint64 ->
  read_variable_uint_little_endian
    (mk_reader (write_variable_uint_little_endian v ++ rest) true) =
  (v, mk_reader rest true).
Proof.
  unfold max_uint64. intro Hv.
  unfold write_variable_uint_little_endian, read_variable_uint_little_endian.
  destruct (v <? 253) eqn:H1.
  { apply Z.ltb_lt in H1. cbn [app read_byte good stream].
    rewrite byte_value_of_Z, Z.mod_small by lia.
    apply Z.ltb_lt in H1. rewrite H1. reflexivity. }
  apply Z.ltb_ge in H1.
  destruct (v <=? 65535) eqn:H2.
  { apply Z.leb_le in H2. cbn [app read_byte good stream].
    change (byte_value xfd) with 253.
    change (253 <? 253) with false. change (253 =? 253) with true.
    cbv iota. unfold read_2_bytes_little_endian.
    apply read_to_little_endian. change (256 ^ Z.of_nat 2) with 65536. lia. }
  apply Z.leb_gt in H2.
  destruct (v <=? 4294967295) eqn:H3.
  { apply Z.leb_le in H3. cbn [app read_byte good stream].
    change (byte_value xfe) with 254.
    change (254 <? 253) with false. change (254 =? 253) with false.
    change (254 =? 254) with true.
    cbv iota. unfold read_4_bytes_little_endian.
    apply read_to_little_endian.
    change (256 ^ Z.of_nat 4) with 4294967296. lia. }
  apply Z.leb_gt in H3. cbn [app read_byte good stream].
  change (byte_value xff) with 255.
  change (255 <? 253) with false. change (255 =? 253) with false.
  change (255 =? 254) with false.
  cbv iota. unfold read_8_bytes_little_endian.
  apply read_to_little_endian.
  change (256 ^ Z.of_nat 8) with 18446744073709551616. lia.
Qed.

(** A successful read of a compact-size integer consumes at least one
    byte. *)
Lemma read_variable_uint_consumes (r r' : reader) (v : Z) :
  read_variable_uint_little_endian r = (v, r') -> good r' = true ->
  (length (stream r') < length (stream r))%nat.
Proof.
  unfold read_variable_uint_little_endian.
  destruct (read_byte r) as [b r1] eqn:Eb.
  unfold read_2_bytes_little_endian, read_4_bytes_little_endian,
    read_8_bytes_little_endian.
  assert (Hle : forall n, read_little_endian n r1 = (v, r') ->
                          good r' = true ->
                          (length (stream r') < length (stream r))%nat).
  { intros n H Hg.
    destruct (read_little_endian_good _ _ _ _ H Hg) as (Hg1 & Hs1 & _).
    destruct (read_byte_good _ _ _ Eb Hg1) as (_ & Hs0).
    rewrite Hs0, Hs1. cbn [length]. rewrite length_app. lia. }
  destruct (byte_value b <? 253).
  - intros H Hg. injection H as <- <-.
    destruct (read_byte_good _ _ _ Eb Hg) as (_ & Hs0).
    rewrite Hs0. cbn [length]. lia.
  - destruct (byte_value b =? 253); [apply Hle|].
    destruct (byte_value b =? 254); apply Hle.
Qed.

(** A count above the largest 32-bit value was read from nine bytes. *)
Lemma read_variable_uint_wide (r r' : reader) (v : Z) :
  read_variable_uint_little_endian r = (v, r') -> good r' = true ->
  max_uint32 < v ->
  (9 + length (stream r') <= length (stream r))%nat.
Proof.
  unfold read_variable_uint_little_endian, max_uint32.
  destruct (read_byte r) as [b r1] eqn:Eb.
  unfold read_2_bytes_little_endian, read_4_bytes_little_endian,
    read_8_bytes_little_endian.
  pose proof (byte_value_range b) as Hb.
  destruct (byte_value b <? 253) eqn:H253.
  { intros H _ Hv. injection H as <- _. apply Z.ltb_lt in H253. lia. }
  destruct (byte_value b =? 253).
  { intros H Hg Hv.
    destruct (read_little_endian_good _ _ _ _ H Hg) as (_ & _ & Hr).
    change (256 ^ Z.of_nat 2) with 65536 in Hr. lia. }
  destruct (byte_value b =? 254).
  { intros H Hg Hv.
    destruct (read_little_endian_good _ _ _ _ H Hg) as (_ & _ & Hr).
    change (256 ^ Z.of_nat 4) with 4294967296 in Hr. lia. }
  intros H Hg _.
  destruct (read_little_endian_good _ _ _ _ H Hg) as (Hg1 & Hs1 & _).
  destruct (read_byte_good _ _ _ Eb Hg1) as (_ & Hs0).
  rewrite Hs0, Hs1. cbn [length].
  rewrite length_app, length_to_little_endian. lia.
Qed.

Section ElementParse.
Context {A : Type}.
Variable element_from_data : A -> reader -> bool * A * reader.
Variable element_to_data : A -> data_chunk.
Variable element_ok : A -> Prop.

(** An element that the wire format can carry parses from its own
    serialization, whatever follows it and whatever object reads it. *)
Hypothesis element_parses :
  forall (this x : A) (rest : data_chunk),
    element_ok x ->
    element_from_data this (mk_reader (element_to_data x ++ rest) true) =
    (true, x, mk_reader rest true).

Lemma from_data_each_parses (xs : list A) :
  forall (slots : list A) (rest : data_chunk),
    Forall element_ok xs ->
    length slots = length xs ->
    transaction.from_data_each element_from_data true slots
      (mk_reader (concat (map element_to_data xs) ++ rest) true) =
    (true, xs, mk_reader rest true).
Proof.
  induction xs as [|x xs IH]; intros slots rest Hok Hlen.
  - destruct slots; [reflexivity | discriminate].
  - destruct slots as [|slot slots]; [discriminate|].
    inversion Hok as [|? ? Hx Hxs]; subst.
    cbn [map concat transaction.from_data_each].
    rewrite <- app_assoc, (element_parses slot x _ Hx).
    cbn [negb]. rewrite IH by (try assumption; cbn [length] in Hlen; lia).
    reflexivity.
Qed.
End ElementParse.

Section ParseSerialized.
Context {C : Collaborators} {E : ElementCodec} {L : VectorLimits}.
Variable input_ok : input.t -> Prop.
Variable output_ok : output.t -> Prop.

Hypothesis input_parses :
  forall (this x : input.t) (rest : data_chunk),
    input_ok x ->
    input_from_data this (mk_reader (input_to_data x ++ rest) true) =
    (true, x, mk_reader rest true).
Hypothesis output_parses :
  forall (this x : output.t) (rest : data_chunk),
    output_ok x ->
    output_from_data this (mk_reader (output_to_data x ++ rest) true) =
    (true, x, mk_reader rest true).

Lemma resize_empty_length {A : Type} (xs : list A) (d : A) :
  length (resize_to [] (size xs) d) = length xs.
Proof.
  unfold resize_to, size.
  rewrite firstn_nil, app_nil_l, repeat_length. cbn [length]. lia.
Qed.

Lemma from_data_of_to_data
    (this tx : transaction.t) (rest : data_chunk) :
  is_uint32 (transaction.version tx) ->
  is_uint32 (transaction.locktime tx) ->
  size (transaction.inputs tx) <= input_max_size ->
  size (transaction.outputs tx) <= output_max_size ->
  Forall input_ok (transaction.inputs tx) ->
  Forall output_ok (transaction.outputs tx) ->
  transaction.from_data this (data_source (transaction.to_data tx ++ rest)) =
  (returned true, transaction.copy tx, mk_reader rest true).
Proof.
  unfold is_uint32, max_uint32.
  intros Hv Hl Hni Hno Hins Houts.
  pose proof input_max_size_range as Hin_max.
  pose proof output_max_size_range as Hout_max.
  unfold max_ptrdiff in *.
  destruct tx as [v lt ins outs h sg].
  cbn [transaction.version transaction.locktime transaction.inputs
       transaction.outputs] in *.
  rewrite to_data_layout.
  cbn [transaction.version transaction.locktime transaction.inputs
       transaction.outputs].
  unfold write_4_bytes_little_endian, data_source.
  rewrite <- !app_assoc.
  unfold transaction.from_data, read_4_bytes_little_endian.
  rewrite read_to_little_endian
    by (change (256 ^ Z.of_nat 4) with 4294967296; lia).
  cbn [good].
  rewrite read_write_variable_uint
    by (unfold size, max_uint64 in *; lia).
  cbn [good].
  change (transaction.inputs
            (transaction.set_version v (transaction.reset this)))
    with (@nil input.t).
  rewrite resize_within by exact Hni.
  rewrite (from_data_each_parses input_from_data input_to_data input_ok
             input_parses ins)
    by (try assumption; apply resize_empty_length).
  rewrite read_write_variable_uint
    by (unfold size, max_uint64 in *; lia).
  cbn [good].
  change (transaction.outputs
            (transaction.set_inputs ins
               (transaction.set_version v (transaction.reset this))))
    with (@nil output.t).
  rewrite resize_within by exact Hno.
  rewrite (from_data_each_parses output_from_data output_to_data output_ok
             output_parses outs)
    by (try assumption; apply resize_empty_length).
  rewrite read_to_little_endian
    by (change (256 ^ Z.of_nat 4) with 4294967296; lia).
  reflexivity.
Qed.

(** X7.  A transaction whose fields fit their C++ types (32-bit version
    and locktime, vectors within their [max_size()]), and whose inputs and
    outputs the wire format can carry, parses back from its own
    serialization: [from_data] succeeds, yields the same version,
    locktime, inputs and outputs with empty caches, and stops exactly at
    the end of the serialization, leaving what follows unread. *)
Theorem from_data_inverts_to_data
    (this tx : transaction.t) (rest : data_chunk) :
  is_uint32 (transaction.version tx) ->
  is_uint32 (transaction.locktime tx) ->
  size (transaction.inputs tx) <= input_max_size ->
  size (transaction.outputs tx) <= output_max_size ->
  Forall input_ok (transaction.inputs tx) ->
  Forall output_ok (transaction.outputs tx) ->
  transaction.from_data this (data_source (transaction.to_data tx ++ rest)) =
    (returned true,
     transaction.mk (transaction.version tx) (transaction.locktime tx)
       (transaction.inputs tx) (transaction.outputs tx) None 0,
     mk_reader rest true).
Proof.
  intros. rewrite from_data_of_to_data by assumption. reflexivity.
Qed.

(** X8.  The factory applied to the serialization of such a transaction
    returns it with empty caches, so the identity hash of the
    deserialized transaction is the digest of the original serialization;
    applied to bytes on which [from_data] returns false it returns the
    default transaction, and it returns nothing when the exception of
    [from_data] leaves it. *)
Theorem factory_from_data_round_trip (tx : transaction.t) :
  (is_uint32 (transaction.version tx) ->
   is_uint32 (transaction.locktime tx) ->
   size (transaction.inputs tx) <= input_max_size ->
   size (transaction.outputs tx) <= output_max_size ->
   Forall input_ok (transaction.inputs tx) ->
   Forall output_ok (transaction.outputs tx) ->
   transaction.factory_from_data (transaction.to_data tx) =
     Some (transaction.copy tx) /\
   option_map (fun instance => fst (transaction.hash instance))
     (transaction.factory_from_data (transaction.to_data tx)) =
     Some (bitcoin_hash (transaction.to_data tx))) /\
  (forall data : data_chunk,
      fst (transaction.from_data_chunk transaction.default data) =
        returned false ->
      transaction.factory_from_data data = Some transaction.default) /\
  (forall data : data_chunk,
      fst (transaction.from_data_chunk transaction.default data) =
        length_error ->
      transaction.factory_from_data data = None).
Proof.
  split; [|split].
  - intros Hv Hl Hni Hno Hins Houts.
    assert (Hf : transaction.factory_from_data (transaction.to_data tx) =
                 Some (transaction.copy tx)).
    { unfold transaction.factory_from_data, transaction.from_data_chunk.
      rewrite <- (app_nil_r (transaction.to_data tx)).
      rewrite from_data_of_to_data by assumption. reflexivity. }
    split; [exact Hf|]. rewrite Hf. reflexivity.
  - intros data.
    unfold transaction.factory_from_data, transaction.from_data_chunk.
    destruct (transaction.from_data transaction.default (data_source data))
      as [[r t] s] eqn:Hrun.
    cbn [fst]. intros ->.
    rewrite (from_data_false_default _ _ _ _ Hrun). reflexivity.
  - intros data.
    unfold transaction.factory_from_data, transaction.from_data_chunk.
    destruct (transaction.from_data transaction.default (data_source data))
      as [[r t] s].
    cbn [fst]. intros ->. reflexivity.
Qed.
End ParseSerialized.

Section ShortBuffers.
Context {C : Collaborators} {E : ElementCodec} {L : VectorLimits}.

Hypothesis input_round_trip :
  forall (this this' : input.t) (source source' : reader),
    input_from_data this source = (true, this', source') ->
    good source' = true ->
    good source = true /\
    stream source = input_to_data this' ++ stream source'.
Hypothesis output_round_trip :
  forall (this this' : output.t) (source source' : reader),
    output_from_data this source = (true, this', source') ->
    good source' = true ->
    good source = true /\
    stream source = output_to_data this' ++ stream source'.

(** X9.  No buffer shorter than 10 bytes parses: the version, the two
    counts and the locktime take at least that many, and a count that no
    vector can hold takes nine bytes by itself.  [from_data] returns false
    on it and the transaction is the default one. *)
Theorem short_buffer_fails (this : transaction.t) (data : data_chunk) :
  (length data < 10)%nat ->
  transaction.from_data_chunk this data =
  (returned false, transaction.default).
Proof.
  intro Hlen. unfold transaction.from_data_chunk.
  destruct (transaction.from_data this (data_source data))
    as [[result tx] rest] eqn:Hrun.
  destruct result as [[|]|].
  - exfalso. apply from_data_steps in Hrun.
    destruct Hrun
      as (v & s1 & n_in & s2 & ins & s3 & n_out & s4 & outs & s5 & lt
          & Ev & Hg1 & Ein & Hg2 & Eins & Eout & Hg4 & Eouts & Elt & Hg6 & _).
    destruct (read_little_endian_good _ _ _ _ Elt Hg6) as (Hg5 & Hs5 & _).
    destruct (from_data_each_good output_from_data output_to_data
                output_round_trip _ _ _ _ _ Eouts Hg5) as (_ & Hs4 & _).
    pose proof (read_variable_uint_consumes _ _ _ Eout Hg4) as Hc3.
    destruct (read_variable_uint_good _ _ _ Eout Hg4) as (Hg3 & _).
    destruct (from_data_each_good input_from_data input_to_data
                input_round_trip _ _ _ _ _ Eins Hg3) as (_ & Hs2 & _).
    pose proof (read_variable_uint_consumes _ _ _ Ein Hg2) as Hc1.
    destruct (read_little_endian_good _ _ _ _ Ev Hg1) as (_ & Hs0 & _).
    cbn [stream data_source] in Hs0.
    apply (f_equal (@length byte)) in Hs0, Hs2, Hs4, Hs5.
    rewrite length_app in Hs0, Hs2, Hs4, Hs5.
    rewrite length_to_little_endian in Hs0, Hs5. lia.
  - rewrite (from_data_false_default _ _ _ _ Hrun). reflexivity.
  - exfalso. apply from_data_thrown in Hrun.
    pose proof input_max_size_range as Hin_max.
    pose proof output_max_size_range as Hout_max.
    destruct Hrun
      as [(v & s1 & n_in & Ev & Hg1 & Ein & Hg2 & Hbig & _)
         |(v & s1 & n_in & s2 & ins & s3 & n_out
           & Ev & Hg1 & Ein & Hg2 & Eins & Eout & Hg4 & Hbig & _)].
    + pose proof (read_variable_uint_wide _ _ _ Ein Hg2 ltac:(lia)) as Hw.
      destruct (read_little_endian_good _ _ _ _ Ev Hg1) as (_ & Hs0 & _).
      cbn [stream data_source] in Hs0.
      apply (f_equal (@length byte)) in Hs0.
      rewrite length_app, length_to_little_endian in Hs0. lia.
    + pose proof (read_variable_uint_wide _ _ _ Eout Hg4 ltac:(lia)) as Hw.
      destruct (read_variable_uint_good _ _ _ Eout Hg4) as (Hg3 & _).
      destruct (from_data_each_good input_from_data input_to_data
                  input_round_trip _ _ _ _ _ Eins Hg3) as (_ & Hs2 & _).
      pose proof (read_variable_uint_consumes _ _ _ Ein Hg2) as Hc1.
      destruct (read_little_endian_good _ _ _ _ Ev Hg1) as (_ & Hs0 & _).
      cbn [stream data_source] in Hs0.
      apply (f_equal (@length byte)) in Hs0, Hs2.
      rewrite length_app in Hs0, Hs2.
      rewrite length_to_little_endian in Hs0. lia.
Qed.
End ShortBuffers.

(** * Further properties of the consensus predicates *)

Section Predicates.
Context {C : Collaborators} {E : ElementCodec}.

Lemma is_coinbase_single (x : input.t) (tx : transaction.t) :
  transaction.inputs tx = [x] ->
  transaction.is_coinbase tx = Some (is_null (input.previous_output x)).
Proof.
  intro H. unfold transaction.is_coinbase. rewrite H. reflexivity.
Qed.

(** X10.  [is_coinbase()] is true exactly for a transaction with one
    input whose previous output is null; [is_invalid_coinbase()] is true
    exactly when, in addition, the serialized size of that input's script
    is below the minimum or above the maximum coinbase size. *)
Theorem coinbase_characterised (tx : transaction.t) :
  (transaction.is_coinbase tx = Some true <->
   exists x, transaction.inputs tx = [x] /\
             is_null (input.previous_output x) = true) /\
  (transaction.is_invalid_coinbase tx = Some true <->
   exists x, transaction.inputs tx = [x] /\
             is_null (input.previous_output x) = true /\
             (script_serialized_size (input.script x) false
                < min_coinbase_size \/
              script_serialized_size (input.script x) false
                > max_coinbase_size)).
Proof.
  split.
  - split; [apply is_coinbase_true|].
    intros (x & Hx & Hn). rewrite (is_coinbase_single x tx Hx), Hn.
    reflexivity.
  - unfold transaction.is_invalid_coinbase. split.
    + destruct (transaction.is_coinbase tx) as [[|]|] eqn:Hc;
        cbn [and_then negb]; try discriminate.
      destruct (is_coinbase_true _ Hc) as (x & Hx & Hn).
      rewrite Hx. cbn [at_index nth_error and_then].
      intro H. injection H as H. exists x. split; [reflexivity|].
      split; [exact Hn|].
      apply orb_true_iff in H. destruct H as [H|H].
      * left. apply Z.ltb_lt. exact H.
      * right. apply Z.gtb_gt. exact H.
    + intros (x & Hx & Hn & Hsize).
      rewrite (is_coinbase_single x tx Hx), Hn, Hx.
      cbn [and_then negb at_index nth_error]. f_equal.
      apply orb_true_iff. destruct Hsize as [H|H].
      * left. apply Z.ltb_lt. exact H.
      * right. apply Z.gtb_gt. exact H.
Qed.

(** X11.  The two invalidity predicates exclude each other, an invalid
    coinbase is a coinbase, and a transaction without inputs is neither a
    coinbase nor invalid in either sense. *)
Theorem invalidity_predicates_exclusive (tx : transaction.t) :
  ~ (transaction.is_invalid_coinbase tx = Some true /\
     transaction.is_invalid_non_coinbase tx = Some true) /\
  (transaction.is_invalid_coinbase tx = Some true ->
   transaction.is_coinbase tx = Some true) /\
  (transaction.inputs tx = [] ->
   transaction.is_coinbase tx = Some false /\
   transaction.is_invalid_coinbase tx = Some false /\
   transaction.is_invalid_non_coinbase tx = Some false).
Proof.
  unfold transaction.is_invalid_coinbase, transaction.is_invalid_non_coinbase.
  split; [|split].
  - destruct (transaction.is_coinbase tx) as [[|]|];
      cbn [and_then negb]; intros [H1 H2]; discriminate.
  - destruct (transaction.is_coinbase tx) as [[|]|];
      cbn [and_then negb]; intro H; try discriminate. reflexivity.
  - intro Hnil. unfold transaction.is_coinbase. rewrite Hnil.
    repeat split.
Qed.

(** X12.  [is_locktime_conflict()] is true exactly when the locktime is
    not 0 and no input has a sequence below the maximum; in particular a
    transaction with a locktime and no inputs is in conflict.  A
    transaction in conflict, its sequences being 32-bit values, is final at
    every block height and time. *)
Theorem locktime_conflict_characterised (tx : transaction.t) :
  (transaction.is_locktime_conflict tx = true <->
   transaction.locktime tx <> 0 /\
   forall input, In input (transaction.inputs tx) ->
                 max_input_sequence <= input.sequence input) /\
  (Forall (fun input => is_uint32 (input.sequence input))
     (transaction.inputs tx) ->
   transaction.is_locktime_conflict tx = true ->
   forall block_height block_time : Z,
     transaction.is_final tx block_height block_time = true).
Proof.
  assert (Hchar : transaction.is_locktime_conflict tx = true <->
            transaction.locktime tx <> 0 /\
            forall input, In input (transaction.inputs tx) ->
                          max_input_sequence <= input.sequence input).
  { unfold transaction.is_locktime_conflict.
    destruct (transaction.locktime tx =? 0) eqn:H0; cbn [negb andb].
    - apply Z.eqb_eq in H0. split; [discriminate|]. intros [H _]. contradiction.
    - apply Z.eqb_neq in H0.
      destruct (existsb _ (transaction.inputs tx)) eqn:Hex.
      + split; [discriminate|]. intros [_ H].
        apply existsb_exists in Hex. destruct Hex as (i & Hi & Hlt).
        apply Z.ltb_lt in Hlt. specialize (H i Hi). lia.
      + split; [|reflexivity]. intros _. split; [exact H0|].
        intros i Hi.
        destruct (Z.ltb_spec (input.sequence i) max_input_sequence)
          as [Hlt|Hge]; [|exact Hge].
        assert (Ht : existsb
                       (fun input =>
                          input.sequence input <? max_input_sequence)
                       (transaction.inputs tx) = true).
        { apply existsb_exists. exists i. split; [exact Hi|].
          apply Z.ltb_lt. exact Hlt. }
        congruence. }
  split; [exact Hchar|].
  intros Hseq Hconf h t. apply Hchar in Hconf. destruct Hconf as [_ Hmax].
  unfold transaction.is_final.
  destruct (transaction.locktime tx =? 0); [reflexivity|].
  match goal with |- (if ?c then _ else _) = _ => destruct c end;
    [reflexivity|].
  apply all_inputs_final. intros i Hi.
  rewrite Forall_forall in Hseq. specialize (Hseq i Hi). specialize (Hmax i Hi).
  unfold is_uint32, max_input_sequence in *. lia.
Qed.

(** X13.  Finality is monotone: a transaction final at a block height and
    time is final at every later height (heights fitting 32 bits) and
    time. *)
Theorem is_final_monotone
    (tx : transaction.t) (height height' time time' : Z) :
  0 <= height <= height' -> height' <= max_uint32 -> time <= time' ->
  transaction.is_final tx height time = true ->
  transaction.is_final tx height' time' = true.
Proof.
  unfold max_uint32. intros Hh Hh' Ht.
  unfold transaction.is_final, wrap32.
  rewrite (Z.mod_small height), (Z.mod_small height') by lia.
  destruct (transaction.locktime tx =? 0); [reflexivity|].
  destruct (transaction.locktime tx <? locktime_threshold).
  - destruct (transaction.locktime tx <? height) eqn:H1.
    + apply Z.ltb_lt in H1. intros _.
      assert (H2 : (transaction.locktime tx <? height') = true)
        by (apply Z.ltb_lt; lia).
      rewrite H2. reflexivity.
    + intro H. rewrite H.
      destruct (transaction.locktime tx <? height'); reflexivity.
  - destruct (transaction.locktime tx <? time) eqn:H1.
    + apply Z.ltb_lt in H1. intros _.
      assert (H2 : (transaction.locktime tx <? time') = true)
        by (apply Z.ltb_lt; lia).
      rewrite H2. reflexivity.
    + intro H. rewrite H.
      destruct (transaction.locktime tx <? time'); reflexivity.
Qed.
End Predicates.

(** * Further properties of the output total *)

Section OutputTotal.
Context {C : Collaborators} {E : ElementCodec}.

Lemma value_sum_cons (x : output.t) (a : list output.t) :
  transaction.value_sum (x :: a) = output.value x + transaction.value_sum a.
Proof. reflexivity. Qed.

Lemma value_sum_permutation (a b : list output.t) :
  Permutation a b -> transaction.value_sum a = transaction.value_sum b.
Proof.
  induction 1 as [|x a b _ IH|x y a|a b c _ IH1 _ IH2].
  - reflexivity.
  - rewrite !value_sum_cons, IH. reflexivity.
  - rewrite !value_sum_cons. lia.
  - congruence.
Qed.

Lemma value_sum_app (a b : list output.t) :
  transaction.value_sum (a ++ b) =
  transaction.value_sum a + transaction.value_sum b.
Proof.
  induction a as [|x a IH]; cbn [app].
  - change (transaction.value_sum []) with 0. lia.
  - rewrite !value_sum_cons, IH. lia.
Qed.

Lemma value_sum_member (outs : list output.t) (o : output.t) :
  Forall (fun output => is_uint64 (output.value output)) outs ->
  In o outs -> output.value o <= transaction.value_sum outs.
Proof.
  induction 1 as [|x outs Hx Hall IH]; intro Hin; [contradiction|].
  cbn [transaction.value_sum fold_right].
  fold (transaction.value_sum outs).
  pose proof (value_sum_nonneg _ Hall). unfold is_uint64 in Hx.
  destruct Hin as [->|Hin]; [lia|]. specialize (IH Hin). lia.
Qed.

Lemma total_output_value_min (tx : transaction.t) :
  Forall (fun output => is_uint64 (output.value output))
    (transaction.outputs tx) ->
  transaction.total_output_value tx =
  Z.min max_uint64 (transaction.value_sum (transaction.outputs tx)).
Proof.
  intro H. unfold transaction.total_output_value, accumulate.
  rewrite accumulate_values;
    [reflexivity | unfold max_uint64; lia | exact H].
Qed.

(** X14.  The total does not depend on the order of the outputs: two
    transactions whose outputs are permutations of each other have the same
    [total_output_value()], saturated or not. *)
Theorem total_output_value_order_independent (a b : transaction.t) :
  Forall (fun output => is_uint64 (output.value output))
    (transaction.outputs a) ->
  Permutation (transaction.outputs a) (transaction.outputs b) ->
  transaction.total_output_value a = transaction.total_output_value b.
Proof.
  intros Ha Hperm.
  assert (Hb : Forall (fun output => is_uint64 (output.value output))
                 (transaction.outputs b)).
  { rewrite Forall_forall in *. intros o Ho. apply Ha.
    apply (Permutation_in o (Permutation_sym Hperm)). exact Ho. }
  rewrite !total_output_value_min by assumption.
  rewrite (value_sum_permutation _ _ Hperm). reflexivity.
Qed.

(** X15.  The total is a 64-bit value, at least as large as every single
    output value, and adding an output never makes it smaller. *)
Theorem total_output_value_bounds (tx : transaction.t) :
  Forall (fun output => is_uint64 (output.value output))
    (transaction.outputs tx) ->
  is_uint64 (transaction.total_output_value tx) /\
  (forall output, In output (transaction.outputs tx) ->
                  output.value output <= transaction.total_output_value tx) /\
  (forall extra : output.t,
      is_uint64 (output.value extra) ->
      transaction.total_output_value tx <=
      transaction.total_output_value
        (transaction.set_outputs (transaction.outputs tx ++ [extra]) tx)).
Proof.
  intro H. rewrite total_output_value_min by exact H.
  pose proof (value_sum_nonneg _ H) as Hnn.
  split; [unfold is_uint64, max_uint64 in *; lia|]. split.
  - intros o Ho. pose proof (value_sum_member _ o H Ho) as Hle.
    rewrite Forall_forall in H. specialize (H o Ho).
    unfold is_uint64 in H. lia.
  - intros extra Hextra.
    rewrite total_output_value_min.
    + cbn [transaction.outputs transaction.set_outputs].
      rewrite value_sum_app, value_sum_cons.
      change (transaction.value_sum []) with 0.
      unfold is_uint64 in Hextra. lia.
    + cbn [transaction.outputs transaction.set_outputs].
      apply Forall_app. split; [exact H|].
      apply Forall_cons; [exact Hextra | apply Forall_nil].
Qed.
End OutputTotal.

(** * The sample instance meets the wire-format contracts *)

#[local] Existing Instance sample.collaborators.
#[local] Existing Instance sample.codec.
#[local] Existing Instance sample.limits.

Lemma sample_read_script_good (r r' : reader) (s : data_chunk) :
  sample.read_script r = (true, s, r') -> good r' = true ->
  good r = true /\ stream r = sample.write_script s ++ stream r'.
Proof.
  unfold sample.read_script, sample.write_script.
  destruct (read_byte r) as [n r1] eqn:En.
  destruct (253 <=? byte_value n); [discriminate|].
  destruct (read_bytes (Z.to_nat (byte_value n)) r1) as [bs r2] eqn:Ebs.
  intros H Hg. injection H as <- <-.
  destruct (read_bytes_good _ _ _ _ Ebs Hg) as (Hg1 & Hs1 & Hl).
  destruct (read_byte_good _ _ _ En Hg1) as (Hg0 & Hs0).
  split; [exact Hg0|].
  pose proof (byte_value_range n) as Hn.
  assert (Hsz : size bs = byte_value n) by (unfold size; lia).
  rewrite Hsz, byte_of_value, Hs0, Hs1. reflexivity.
Qed.

Lemma sample_input_round_trip
    (this this' : input.t) (source source' : reader) :
  input_from_data this source = (true, this', source') ->
  good source' = true ->
  good source = true /\ stream source = input_to_data this' ++ stream source'.
Proof.
  cbn [input_from_data input_to_data sample.codec].
  unfold sample.read_input, sample.write_input.
  destruct (read_bytes 32 source) as [h s1] eqn:Eh.
  destruct (read_4_bytes_little_endian s1) as [i s2] eqn:Ei.
  destruct (sample.read_script s2) as [[ok s] s3] eqn:Es.
  destruct (read_4_bytes_little_endian s3) as [q s4] eqn:Eq.
  destruct ok; cbn [andb]; [|discriminate].
  destruct (good s4) eqn:Hg4; [|discriminate].
  intros H _. injection H as <- <-.
  destruct (read_little_endian_good _ _ _ _ Eq Hg4) as (Hg3 & Hs3 & _).
  destruct (sample_read_script_good _ _ _ Es Hg3) as (Hg2 & Hs2).
  destruct (read_little_endian_good _ _ _ _ Ei Hg2) as (Hg1 & Hs1 & _).
  destruct (read_bytes_good _ _ _ _ Eh Hg1) as (Hg0 & Hs0 & _).
  split; [exact Hg0|].
  cbn [input.previous_output input.script input.sequence
       sample.point_hash sample.point_index].
  unfold write_4_bytes_little_endian.
  rewrite Hs0, Hs1, Hs2, Hs3, <- !app_assoc. reflexivity.
Qed.

Lemma sample_output_round_trip
    (this this' : output.t) (source source' : reader) :
  output_from_data this source = (true, this', source') ->
  good source' = true ->
  good source = true /\ stream source = output_to_data this' ++ stream source'.
Proof.
  cbn [output_from_data output_to_data sample.codec].
  unfold sample.read_output, sample.write_output.
  destruct (read_8_bytes_little_endian source) as [v s1] eqn:Ev.
  destruct (sample.read_script s1) as [[ok s] s2] eqn:Es.
  destruct ok; cbn [andb]; [|discriminate].
  destruct (good s2) eqn:Hg2; [|discriminate].
  intros H _. injection H as <- <-.
  destruct (sample_read_script_good _ _ _ Es Hg2) as (Hg1 & Hs1).
  destruct (read_little_endian_good _ _ _ _ Ev Hg1) as (Hg0 & Hs0 & _).
  split; [exact Hg0|].
  cbn [output.value output.script].
  rewrite Hs0, Hs1, <- !app_assoc. reflexivity.
Qed.

Lemma sample_input_size (this : input.t) :
  input_serialized_size this = size (input_to_data this).
Proof. reflexivity. Qed.

Lemma sample_output_size (this : output.t) :
  output_serialized_size this = size (output_to_data this).
Proof. reflexivity. Qed.

(** * The model on sample transactions *)

Example parse_coinbase_bytes :
  transaction.from_data transaction.default
    (data_source samples.coinbase_bytes) =
  (returned true, samples.coinbase_tx, mk_reader [] true).
Proof. reflexivity. Qed.

Example serialize_coinbase_tx :
  transaction.to_data samples.coinbase_tx = samples.coinbase_bytes.
Proof. vm_compute. reflexivity. Qed.

Example coinbase_tx_is_coinbase :
  transaction.is_coinbase samples.coinbase_tx = Some true /\
  transaction.is_invalid_coinbase samples.coinbase_tx = Some false /\
  transaction.is_invalid_non_coinbase samples.coinbase_tx = Some false /\
  transaction.is_final samples.coinbase_tx 0 0 = true.
Proof. vm_compute. repeat split. Qed.

(** A count written in a longer form than needed parses, and is written
    back in the shortest form. *)
Example padded_count_is_rewritten :
  transaction.from_data_chunk transaction.default samples.padded_bytes =
    (returned true, samples.empty_tx) /\
  transaction.to_data samples.empty_tx = samples.empty_bytes /\
  transaction.counts_minimal (data_source samples.padded_bytes) = false.
Proof. repeat split. Qed.

(** The digest returned after a move-assignment onto a transaction with a
    cached digest is not the digest of the new content. *)
Example stale_hash_after_move_assign :
  let assigned :=
    transaction.move_assign samples.cached_tx samples.coinbase_tx in
  fst (transaction.hash assigned) = [xaa] /\
  bitcoin_hash (transaction.to_data assigned) <> [xaa].
Proof. vm_compute. split; [reflexivity | discriminate]. Qed.

(** * Claims settled on sample inputs *)

(** C1 (defect).  A freshly constructed transaction whose single input
    script holds one signature operation: [signature_operations()] returns
    0, the value of the cache that neither [std::accumulate] call assigns,
    where the saturating sum over the scripts is 1. *)
Theorem signature_operations_discards_sum :
  transaction.sigops_ samples.signing_tx = 0 /\
  transaction.signature_operations samples.signing_tx = 0 /\
  transaction.signature_operations_spec samples.signing_tx = 1.
Proof. vm_compute. repeat split. Qed.

(** C2, as stated, fails: a buffer holding a serialized transaction and
    one byte more parses successfully, and the transaction serializes to
    the buffer without that byte. *)
Lemma round_trip_fails_on_trailing_bytes :
  transaction.from_data_chunk transaction.default samples.trailing_bytes =
    (returned true, samples.empty_tx) /\
  transaction.to_data samples.empty_tx <> samples.trailing_bytes /\
  transaction.serialized_size samples.empty_tx <>
    size samples.trailing_bytes.
Proof.
  split; [reflexivity|].
  split; vm_compute; discriminate.
Qed.

Lemma from_data_to_data_round_trip_witness :
  (transaction.from_data transaction.default
     (data_source samples.coinbase_bytes) =
     (returned true, samples.coinbase_tx, mk_reader [] true) /\
   transaction.to_data samples.coinbase_tx = samples.coinbase_bytes /\
   transaction.serialized_size samples.coinbase_tx =
     size samples.coinbase_bytes) /\
  (size (transaction.to_data samples.signing_tx) <= max_uint64 /\
   transaction.serialized_size samples.signing_tx =
     size (transaction.to_data samples.signing_tx)).
Proof.
  pose proof (from_data_to_data_round_trip
                sample_input_round_trip sample_output_round_trip
                sample_input_size sample_output_size) as [Hparse Hsize].
  split.
  - split; [reflexivity|].
    apply (Hparse samples.coinbase_bytes transaction.default
             samples.coinbase_tx (mk_reader [] true)).
    + reflexivity.
    + reflexivity.
    + vm_compute; reflexivity.
    + vm_compute; discriminate.
  - assert (Hfit : size (transaction.to_data samples.signing_tx)
                   <= max_uint64) by (vm_compute; discriminate).
    split; [exact Hfit|]. apply Hsize. exact Hfit.
Defined.

(** An output count beyond [max_size()] throws after the inputs are
    parsed: the exception leaves [from_data] with the version and the
    inputs in place. *)
Example from_data_throws_after_inputs :
  transaction.from_data transaction.default
    (data_source samples.oversized_output_count_bytes) =
  (length_error,
   transaction.mk 1 0 [sample.coinbase_input] [] None 0,
   mk_reader [] true).
Proof. reflexivity. Qed.

(** A buffer that ends inside the version field: [from_data] returns
    false and the transaction is the default one. *)
Example from_data_truncated_version :
  transaction.from_data samples.cached_tx
    (data_source samples.truncated_bytes) =
  (returned false, transaction.default, mk_reader [] false).
Proof. reflexivity. Qed.

(** C4, as stated, fails: with locktime 1, an input that is not final and
    block height [2^32], the locktime is strictly below the block height,
    yet [is_final] compares against the height reduced to 32 bits, which is
    0, and returns false. *)
Lemma is_final_drops_high_height_bits :
  transaction.is_final samples.locked_tx (2 ^ 32) 0 = false /\
  transaction.is_final_spec samples.locked_tx (2 ^ 32) 0.
Proof.
  split; [vm_compute; reflexivity|].
  right. left. vm_compute. reflexivity.
Qed.

Lemma is_final_truncated_height_witness :
  0 <= 2 <= max_uint32 /\
  (transaction.is_final samples.locked_tx 2 0 = true <->
   transaction.is_final_spec samples.locked_tx 2 0).
Proof.
  assert (Hrange : 0 <= 2 <= max_uint32) by (unfold max_uint32; lia).
  split; [exact Hrange|].
  apply (proj2 (is_final_truncated_height samples.locked_tx 2 0)).
  exact Hrange.
Defined.

Lemma equal_addresses_same_key_witness :
  (payment_address.equal samples.address_a samples.address_b = true /\
   payment_address.std_hash sample.string_hash samples.address_a =
   payment_address.std_hash sample.string_hash samples.address_b) /\
  (payment_address.well_formed samples.address_a /\
   payment_address.std_hash sample.string_hash samples.address_a =
   sample.string_hash (x05 :: repeat x2a 20)).
Proof.
  pose proof (equal_addresses_same_key sample.string_hash
                samples.address_a samples.address_b) as (_ & Hkey & Hbuffer).
  split.
  - split; [reflexivity|]. apply Hkey. reflexivity.
  - split; [reflexivity|]. apply Hbuffer. reflexivity.
Defined.

Lemma total_output_value_saturates_witness :
  (transaction.value_sum
     (firstn 2 (transaction.outputs samples.overflowing_tx)) > max_uint64 /\
   transaction.total_output_value samples.overflowing_tx = max_uint64) /\
  (transaction.value_sum (transaction.outputs samples.coinbase_tx)
     <= max_uint64 /\
   transaction.total_output_value samples.coinbase_tx =
   transaction.value_sum (transaction.outputs samples.coinbase_tx)).
Proof.
  split.
  - assert (Hvalues : Forall (fun output => is_uint64 (output.value output))
                        (transaction.outputs samples.overflowing_tx))
      by (repeat (apply Forall_cons; [vm_compute; split; discriminate|]);
          apply Forall_nil).
    split; [vm_compute; reflexivity|].
    apply (proj2 (proj2 (total_output_value_saturates samples.overflowing_tx
                           Hvalues)) 2%nat).
    vm_compute; reflexivity.
  - assert (Hvalues : Forall (fun output => is_uint64 (output.value output))
                        (transaction.outputs samples.coinbase_tx))
      by (repeat (apply Forall_cons; [vm_compute; split; discriminate|]);
          apply Forall_nil).
    assert (Hfits : transaction.value_sum
                      (transaction.outputs samples.coinbase_tx)
                    <= max_uint64) by (vm_compute; discriminate).
    split; [exact Hfits|].
    apply (proj1 (proj2 (total_output_value_saturates samples.coinbase_tx
                           Hvalues))).
    exact Hfits.
Defined.


Lemma move_assign_keeps_caches_witness :
  transaction.hash_ samples.cached_tx = Some [xaa] /\
  fst (transaction.hash
         (transaction.move_assign samples.cached_tx samples.coinbase_tx)) =
  [xaa].
Proof.
  split; [reflexivity|].
  apply (move_assign_keeps_caches samples.cached_tx samples.coinbase_tx).
  reflexivity.
Defined.

Lemma coinbase_reads_in_bounds_witness :
  at_index (transaction.inputs samples.empty_tx) 0 = None /\
  transaction.is_coinbase samples.empty_tx = Some false /\
  transaction.is_invalid_coinbase samples.empty_tx = Some false.
Proof.
  split; [reflexivity|].
  apply (coinbase_reads_in_bounds samples.empty_tx).
  reflexivity.
Defined.

(** * The sample wire format parses what it writes *)

Lemma read_bytes_exact (bs rest : data_chunk) :
  read_bytes (length bs) (mk_reader (bs ++ rest) true) =
  (bs, mk_reader rest true).
Proof.
  induction bs as [|b bs IH]; [reflexivity|].
  cbn [length read_bytes app read_byte good stream]. rewrite IH. reflexivity.
Qed.

Lemma sample_read_script_of_write (s rest : data_chunk) :
  size s < 253 ->
  sample.read_script (mk_reader (sample.write_script s ++ rest) true) =
  (true, s, mk_reader rest true).
Proof.
  intro Hs. unfold sample.read_script, sample.write_script.
  cbn [app read_byte good stream].
  assert (Hn : 0 <= size s) by (unfold size; lia).
  rewrite byte_value_of_Z, Z.mod_small by lia.
  destruct (Z.leb_spec 253 (size s)) as [H|_]; [lia|].
  replace (Z.to_nat (size s)) with (length s) by (unfold size; lia).
  rewrite read_bytes_exact. reflexivity.
Qed.

Lemma sample_input_parses (this x : input.t) (rest : data_chunk) :
  sample_values.input_ok x ->
  input_from_data this (mk_reader (input_to_data x ++ rest) true) =
  (true, x, mk_reader rest true).
Proof.
  destruct x as [[h idx] s q].
  unfold sample_values.input_ok.
  cbn [input.previous_output input.script input.sequence
       sample.point_hash sample.point_index].
  intros (Hh & Hidx & Hs & Hq).
  cbn [input_from_data input_to_data sample.codec].
  unfold sample.read_input, sample.write_input.
  cbn [input.previous_output input.script input.sequence
       sample.point_hash sample.point_index].
  unfold write_4_bytes_little_endian, read_4_bytes_little_endian.
  rewrite <- !app_assoc, <- Hh, read_bytes_exact.
  rewrite read_to_little_endian by exact Hidx.
  rewrite sample_read_script_of_write by exact Hs.
  rewrite read_to_little_endian by exact Hq.
  reflexivity.
Qed.

Lemma sample_output_parses (this x : output.t) (rest : data_chunk) :
  sample_values.output_ok x ->
  output_from_data this (mk_reader (output_to_data x ++ rest) true) =
  (true, x, mk_reader rest true).
Proof.
  destruct x as [v s].
  unfold sample_values.output_ok. cbn [output.value output.script].
  intros (Hv & Hs).
  cbn [output_from_data output_to_data sample.codec].
  unfold sample.read_output, sample.write_output.
  cbn [output.value output.script].
  unfold read_8_bytes_little_endian.
  rewrite <- !app_assoc.
  rewrite read_to_little_endian by exact Hv.
  rewrite sample_read_script_of_write by exact Hs.
  reflexivity.
Qed.

(** * The further properties on sample inputs *)

Lemma coinbase_tx_carried :
  Forall sample_values.input_ok (transaction.inputs samples.coinbase_tx) /\
  Forall sample_values.output_ok (transaction.outputs samples.coinbase_tx).
Proof.
  split.
  - apply Forall_cons; [|apply Forall_nil].
    unfold sample_values.input_ok. vm_compute.
    repeat split; discriminate.
  - apply Forall_cons; [|apply Forall_nil].
    unfold sample_values.output_ok. vm_compute.
    repeat split; discriminate.
Qed.

Lemma from_data_clears_caches_witness :
  transaction.from_data samples.cached_tx
    (data_source samples.coinbase_bytes) =
    (returned true, samples.coinbase_tx, mk_reader [] true) /\
  fst (transaction.hash samples.coinbase_tx) =
    bitcoin_hash (transaction.to_data samples.coinbase_tx).
Proof.
  assert (Hrun : transaction.from_data samples.cached_tx
                   (data_source samples.coinbase_bytes) =
                 (returned true, samples.coinbase_tx, mk_reader [] true))
    by reflexivity.
  split; [exact Hrun|].
  apply (from_data_clears_caches _ _ _ _ _ Hrun).
Defined.

Lemma hash_memoizes_witness :
  transaction.hash_ samples.coinbase_tx = None /\
  fst (transaction.hash samples.coinbase_tx) =
    bitcoin_hash (transaction.to_data samples.coinbase_tx).
Proof.
  split; [reflexivity|].
  apply (hash_memoizes samples.coinbase_tx). reflexivity.
Defined.

Lemma copy_assign_shares_digest_witness :
  transaction.hash_ samples.coinbase_tx = None /\
  fst (transaction.hash
         (fst (transaction.copy_assign samples.cached_tx
                 samples.coinbase_tx))) =
  bitcoin_hash
    (transaction.to_data
       (fst (transaction.copy_assign samples.cached_tx
               samples.coinbase_tx))).
Proof.
  split; [reflexivity|].
  apply (copy_assign_shares_digest samples.cached_tx samples.coinbase_tx).
  reflexivity.
Defined.

Lemma reachable_signature_operations_zero_witness :
  reachable (snd (transaction.hash samples.signing_tx)) /\
  transaction.signature_operations
    (snd (transaction.hash samples.signing_tx)) = 0.
Proof.
  assert (Hreach : reachable (snd (transaction.hash samples.signing_tx)))
    by (apply reach_hash; apply reach_make).
  split; [exact Hreach|].
  apply (reachable_signature_operations_zero _ Hreach).
Defined.

Lemma from_data_inverts_to_data_witness :
  transaction.from_data samples.cached_tx
    (data_source (transaction.to_data samples.coinbase_tx ++ [xff])) =
  (returned true, samples.coinbase_tx, mk_reader [xff] true).
Proof.
  destruct coinbase_tx_carried as [Hins Houts].
  apply (from_data_inverts_to_data
           sample_values.input_ok sample_values.output_ok
           sample_input_parses sample_output_parses
           samples.cached_tx samples.coinbase_tx [xff]).
  - vm_compute. split; discriminate.
  - vm_compute. split; discriminate.
  - vm_compute. discriminate.
  - vm_compute. discriminate.
  - exact Hins.
  - exact Houts.
Defined.

Lemma factory_from_data_round_trip_witness :
  (transaction.factory_from_data
     (transaction.to_data samples.coinbase_tx) =
   Some (transaction.copy samples.coinbase_tx) /\
   option_map (fun instance => fst (transaction.hash instance))
     (transaction.factory_from_data
        (transaction.to_data samples.coinbase_tx)) =
   Some (bitcoin_hash (transaction.to_data samples.coinbase_tx))) /\
  (fst (transaction.from_data_chunk transaction.default
          samples.truncated_bytes) = returned false /\
   transaction.factory_from_data samples.truncated_bytes =
   Some transaction.default) /\
  (fst (transaction.from_data_chunk transaction.default
          samples.oversized_input_count_bytes) = length_error /\
   transaction.factory_from_data samples.oversized_input_count_bytes =
   None).
Proof.
  destruct coinbase_tx_carried as [Hins Houts].
  pose proof (factory_from_data_round_trip
                sample_values.input_ok sample_values.output_ok
                sample_input_parses sample_output_parses
                samples.coinbase_tx) as (Hround & Hfail & Hthrow).
  split; [|split].
  - apply Hround; try assumption.
    + vm_compute. split; discriminate.
    + vm_compute. split; discriminate.
    + vm_compute. discriminate.
    + vm_compute. discriminate.
  - split; [reflexivity|]. apply Hfail. reflexivity.
  - split; [reflexivity|]. apply Hthrow. reflexivity.
Defined.

Lemma short_buffer_fails_witness :
  (length samples.truncated_bytes < 10)%nat /\
  transaction.from_data_chunk samples.cached_tx samples.truncated_bytes =
  (returned false, transaction.default).
Proof.
  assert (Hlen : (length samples.truncated_bytes < 10)%nat)
    by (cbn [length samples.truncated_bytes]; lia).
  split; [exact Hlen|].
  apply (short_buffer_fails sample_input_round_trip sample_output_round_trip
           samples.cached_tx samples.truncated_bytes Hlen).
Defined.

Lemma coinbase_characterised_witness :
  transaction.is_invalid_coinbase sample_values.short_coinbase_tx =
  Some true.
Proof.
  apply (proj2 (coinbase_characterised sample_values.short_coinbase_tx)).
  exists (sample.make_input sample.null_point [x01] max_input_sequence).
  split; [reflexivity|]. split; [reflexivity|].
  left. vm_compute. reflexivity.
Defined.

Lemma invalidity_predicates_exclusive_witness :
  transaction.inputs samples.empty_tx = [] /\
  transaction.is_coinbase samples.empty_tx = Some false /\
  transaction.is_invalid_coinbase samples.empty_tx = Some false /\
  transaction.is_invalid_non_coinbase samples.empty_tx = Some false.
Proof.
  split; [reflexivity|].
  apply (invalidity_predicates_exclusive samples.empty_tx). reflexivity.
Defined.

Lemma locktime_conflict_characterised_witness :
  transaction.is_locktime_conflict sample_values.conflict_tx = true /\
  transaction.is_final sample_values.conflict_tx 0 0 = true.
Proof.
  assert (Hconflict :
            transaction.is_locktime_conflict sample_values.conflict_tx = true)
    by reflexivity.
  split; [exact Hconflict|].
  apply (proj2 (locktime_conflict_characterised sample_values.conflict_tx)).
  - repeat (apply Forall_cons; [vm_compute; split; discriminate|]).
    apply Forall_nil.
  - exact Hconflict.
Defined.

Lemma is_final_monotone_witness :
  transaction.is_final sample_values.waiting_tx 101 0 = true /\
  transaction.is_final sample_values.waiting_tx 200 5 = true.
Proof.
  assert (Hfinal : transaction.is_final sample_values.waiting_tx 101 0 = true)
    by reflexivity.
  split; [exact Hfinal|].
  apply (is_final_monotone sample_values.waiting_tx 101 200 0 5).
  - lia.
  - unfold max_uint32. lia.
  - lia.
  - exact Hfinal.
Defined.

Lemma overflowing_values_fit :
  Forall (fun output => is_uint64 (output.value output))
    (transaction.outputs samples.overflowing_tx).
Proof.
  repeat (apply Forall_cons; [vm_compute; split; discriminate|]).
  apply Forall_nil.
Qed.

Lemma total_output_value_order_independent_witness :
  Permutation (transaction.outputs samples.overflowing_tx)
    (transaction.outputs sample_values.reordered_tx) /\
  transaction.total_output_value samples.overflowing_tx =
  transaction.total_output_value sample_values.reordered_tx.
Proof.
  assert (Hperm : Permutation (transaction.outputs samples.overflowing_tx)
                    (transaction.outputs sample_values.reordered_tx)).
  { cbn [transaction.outputs samples.overflowing_tx
         sample_values.reordered_tx transaction.make].
    apply Permutation_sym.
    apply (Permutation_cons_app [_; _] [] _). apply Permutation_refl. }
  split; [exact Hperm|].
  apply (total_output_value_order_independent _ _
           overflowing_values_fit Hperm).
Defined.

Lemma total_output_value_bounds_witness :
  is_uint64 (output.value (sample.make_output 7 [])) /\
  transaction.total_output_value samples.overflowing_tx <=
  transaction.total_output_value
    (transaction.set_outputs
       (transaction.outputs samples.overflowing_tx ++
        [sample.make_output 7 []]) samples.overflowing_tx).
Proof.
  assert (Hextra : is_uint64 (output.value (sample.make_output 7 [])))
    by (vm_compute; split; discriminate).
  split; [exact Hextra|].
  apply (total_output_value_bounds samples.overflowing_tx
           overflowing_values_fit).
  exact Hextra.
Defined.
